(** * dc-cli: the move/revert handler and the event export diff engine

    A shallow embedding of two command handlers of dc-cli:

    - [Move.handler] (commands/content-item/move.ts): copy, then archive the
      source items, or revert a former move from its log;
    - [ExportEvent.handler] (commands/event/export.ts) with the functions it
      is built from: [enrichEvents], [getExportRecordForEvent],
      [getEventExports], [processEvents], [filterEvents].

    Both handlers are [async] functions that talk to collaborators: the
    content API client, a [FileLog], the console, the file system, the copy
    and import-revert commands.  A handler is embedded as a function of the
    state of the outside world; it returns how it ended (returned or threw,
    that is: the promise resolved or rejected), the world it leaves, and the
    ordered list of the calls it made, each with the result it got. *)

From stdpp Require Import base option numbers list strings pretty.

Set Default Proof Using "Type".
Open Scope string_scope.
Open Scope list_scope.

(** ** JavaScript values *)

Module Js.

(** Truthiness of a value of type [string | undefined]: [undefined] and the
    empty string are falsy. *)
Definition truthy (v : option string) : bool :=
  match v with
  | Some s => negb (bool_decide (s = ""))
  | None => false
  end.

(** [a || b] where [a] may be undefined and [b] is a string. *)
Definition or_else (a : option string) (b : string) : string :=
  match a with
  | Some s => if bool_decide (s = "") then b else s
  | None => b
  end.

(** A value of type [string | undefined] inside a template literal. *)
Definition template (v : option string) : string :=
  match v with
  | Some s => s
  | None => "undefined"
  end.

(** The line feed character, as a string. *)
Definition newline : string := String (Ascii.ascii_of_nat 10) "".

(** [Array.prototype.findIndex]; [None] stands for the result -1. *)
Fixpoint findIndex {A} (p : A → bool) (l : list A) : option nat :=
  match l with
  | [] => None
  | x :: l' => if p x then Some 0 else S <$> findIndex p l'
  end.

End Js.

(** ** Handlers as functions of the world *)

(** A thrown value, as the text its [toString()] gives. *)
Definition Error := string.

Inductive Outcome (A : Type) : Type :=
| Returned (a : A)
| Thrown (e : Error).
Arguments Returned {A} a.
Arguments Thrown {A} e.

(** [Run W C A]: a computation in a world of type [W] that makes calls of
    type [C] and gives an [A].  [W] is the state of everything outside the
    handler. *)
Definition Run (W C A : Type) : Type := W → Outcome A * W * list C.

Global Instance run_ret {W C} : MRet (Run W C) :=
  λ A a w, (Returned a, w, []).

Global Instance run_bind {W C} : MBind (Run W C) :=
  λ A B k m w,
    match m w with
    | (Returned a, w1, t1) =>
        let '(r, w2, t2) := k a w1 in (r, w2, t1 ++ t2)
    | (Thrown e, w1, t1) => (Thrown e, w1, t1)
    end.

Section Run.
Context {W C : Type}.

(** [try { m } catch (e) { h e }] *)
Definition try_catch {A} (m : Run W C A) (h : Error → Run W C A) : Run W C A :=
  λ w,
    match m w with
    | (Returned a, w1, t1) => (Returned a, w1, t1)
    | (Thrown e, w1, t1) =>
        let '(r, w2, t2) := h e w1 in (r, w2, t1 ++ t2)
    end.

(** A call to a collaborator that answers [f w] and is recorded, with its
    answer, as [mk]. *)
Definition call {A} (f : W → Outcome A * W) (mk : Outcome A → C) : Run W C A :=
  λ w, let '(r, w1) := f w in (r, w1, [mk r]).

(** A call that gives nothing back and does not fail its caller. *)
Definition emit (c : C) : Run W C unit := λ w, (Returned (), w, [c]).

(** [for (const x of l) { body x }], and the counting loops that only read
    [l[i]]; a [continue] ends [body x]. *)
Fixpoint for_of {A} (body : A → Run W C unit) (l : list A) : Run W C unit :=
  match l with
  | [] => mret ()
  | x :: l' => body x;; for_of body l'
  end.

Definition outcome {A} (x : Outcome A * W * list C) : Outcome A := x.1.1.
Definition world {A} (x : Outcome A * W * list C) : W := x.1.2.
Definition trace {A} (x : Outcome A * W * list C) : list C := x.2.

(** A loop in which every turn returns, seen from outside.
    [step x w y w' t] reads: the turn of [x], begun in the world [w], gives
    [y], leaves the world [w'] and has made the calls [t].  The elements
    are taken in order, each turn begins in the world that the turn before
    has left, and the calls of the loop are those of its turns, one after
    the other. *)
Inductive in_turn {A B} (step : A → W → B → W → list C → Prop)
  : list A → W → list B → W → list C → Prop :=
| in_turn_nil w : in_turn step [] w [] w []
| in_turn_cons x l w y w1 t1 ys w2 t2 :
    step x w y w1 t1 →
    in_turn step l w1 ys w2 t2 →
    in_turn step (x :: l) w (y :: ys) w2 (t1 ++ t2).

End Run.

Global Arguments outcome {W C A} !x /.
Global Arguments world {W C A} !x /.
Global Arguments trace {W C A} !x /.

(** ** The move command (commands/content-item/move.ts) *)

Module Move.

(** [Status] and the two fields of [ContentItem] (dc-management-sdk-js)
    that the handler reads. *)
Inductive Status := ACTIVE | ARCHIVED | DELETED.

Global Instance Status_eq_dec : EqDecision Status.
Proof. solve_decision. Defined.

Record ContentItem := {
  item_id : option string;
  item_status : option Status
}.

(** Modelled from the spec: the entries of a [FileLog] (common/file-log is
    not part of the sources at hand): an ordered sequence of action
    entries, a kind with its payload, and free-text comments. *)
Inductive LogItem :=
| Action (kind data : string)
| Comment (text : string).

(** Modelled from the spec: [FileLog.getData(kind)], the payloads of the
    entries of the given kind, in the order they were appended. *)
Definition getData (kind : string) (entries : list LogItem) : list string :=
  omap (λ entry,
          match entry with
          | Action k data => if bool_decide (k = kind) then Some data else None
          | Comment _ => None
          end) entries.

(** The fields of [argv] the handler reads. *)
Record Argv := {
  hubId : string;
  clientId : string;
  clientSecret : string;
  dstHubId : option string;
  dstClientId : option string;
  dstSecret : option string;
  revertLog : option string;
  logFile : string
}.

(** The argument the handler passes to [revert] of import-revert, without
    the constant [yargArgs]. *)
Record RevertArgs := {
  revert_hubId : string;
  revert_clientId : string;
  revert_clientSecret : string;
  revert_dir : string;
  revert_revertLog : string
}.

(** The calls of the handler, in the order of the source; a call whose
    answer the handler uses, or that can throw, carries the answer. *)
Inductive Call :=
| NewFileLog (path : option string)
| LoadFromFile (path : string) (r : Outcome (list LogItem))
| AddAction (kind : string) (data : option string)
| AddComment (text : string)
| Close
| ConsoleLog (msg : string)
| CopyHandler (argv : Argv) (r : Outcome (bool * list string))
| ContentItemsGet (id : string) (r : Outcome ContentItem)
| Archive (item : ContentItem) (r : Outcome unit)
| Unarchive (item : ContentItem) (r : Outcome unit)
| ImportRevert (args : RevertArgs) (r : Outcome unit).

(** The collaborators, as functions of the world.  [copy_handler] answers
    with the boolean [copy.handler] resolves to and with what it has left
    in [argv.exportedIds], which the handler had set to the empty array. *)
Class Collaborators (W : Type) := {
  copy_handler : Argv → W → Outcome (bool * list string) * W;
  contentItems_get : string → W → Outcome ContentItem * W;
  related_archive : ContentItem → W → Outcome unit * W;
  related_unarchive : ContentItem → W → Outcome unit * W;
  loadFromFile : string → W → Outcome (list LogItem) * W;
  import_revert : RevertArgs → W → Outcome unit * W
}.

Section Handler.
Context {W : Type} `{!Collaborators W}.

(** The body of the loop of the forward path: lines 222-230. *)
Definition archive_item (id : string) : Run W Call unit :=
  item ← call (contentItems_get id) (ContentItemsGet id);
  try_catch
    (call (related_archive item) (Archive item);;
     emit (AddAction "MOVED" (item_id item)))
    (λ e,
       emit (AddComment ("ARCHIVE FAILED: " +:+ Js.template (item_id item)));;
       emit (AddComment e)).

(** The body of the loop of the revert path: lines 160-179. *)
Definition unarchive_item (id : string) : Run W Call unit :=
  found ← try_catch
            (item ← call (contentItems_get id) (ContentItemsGet id);
             mret (Some item))
            (λ _,
               emit (ConsoleLog ("Could not find item with id " +:+ id +:+ ", skipping."));;
               mret None);
  match found with
  | None => mret ()
  | Some item =>
      if bool_decide (item_status item ≠ Some ACTIVE) then
        try_catch
          (call (related_unarchive item) (Unarchive item))
          (λ _,
             emit (ConsoleLog ("Could not unarchive item with id " +:+ id +:+ ", skipping.")))
      else
        emit (ConsoleLog ("Item with id " +:+ id +:+ " is already unarchived, skipping."))
  end.

(** The handler.  [dynamicContentClientFactory] only builds the client and
    is not a call of its own. *)
Definition handler (argv : Argv) : Run W Call unit :=
  let dstHubId := Js.or_else (dstHubId argv) (hubId argv) in
  let dstClientId := Js.or_else (dstClientId argv) (clientId argv) in
  let dstSecret := Js.or_else (dstSecret argv) (clientSecret argv) in
  match revertLog argv with
  | Some path =>
      emit (NewFileLog None);;
      loaded ← try_catch
                 (entries ← call (loadFromFile path) (LoadFromFile path);
                  mret (Some entries))
                 (λ _,
                    emit (ConsoleLog "Could not open the import log! Aborting.");;
                    mret None);
      match loaded with
      | None => mret ()
      | Some entries =>
          let toUnarchive := getData "MOVED" entries in
          for_of unarchive_item toUnarchive;;
          let args := {| revert_hubId := dstHubId;
                         revert_clientId := dstClientId;
                         revert_clientSecret := dstSecret;
                         revert_dir := "";
                         revert_revertLog := path |} in
          call (import_revert args) (ImportRevert args)
      end
  | None =>
      emit (NewFileLog (Some (logFile argv)));;
      '(copySuccess, exported) ← call (copy_handler argv) (CopyHandler argv);
      if negb copySuccess then mret ()
      else
        for_of archive_item exported;;
        emit Close
  end.

End Handler.

(** *** What the calls of a run show *)

(** The items the run fetched, those it called [archive()] on, those for
    which the call returned, and those for which it threw. *)
Definition fetched (t : list Call) : list ContentItem :=
  omap (λ c, match c with ContentItemsGet _ (Returned item) => Some item | _ => None end) t.

Definition fetch_attempts (t : list Call) : list string :=
  omap (λ c, match c with ContentItemsGet id _ => Some id | _ => None end) t.

Definition archive_calls (t : list Call) : list ContentItem :=
  omap (λ c, match c with Archive item _ => Some item | _ => None end) t.

Definition archived (t : list Call) : list ContentItem :=
  omap (λ c, match c with Archive item (Returned _) => Some item | _ => None end) t.

Definition archive_failures (t : list Call) : list (ContentItem * Error) :=
  omap (λ c, match c with Archive item (Thrown e) => Some (item, e) | _ => None end) t.

(** What the run appended to its log: the payloads of the [MOVED]
    entries, and the comments. *)
Definition moved (t : list Call) : list (option string) :=
  omap (λ c, match c with
             | AddAction kind data => if bool_decide (kind = "MOVED") then Some data else None
             | _ => None
             end) t.

Definition comments (t : list Call) : list string :=
  omap (λ c, match c with AddComment text => Some text | _ => None end) t.

Definition closes (t : list Call) : nat :=
  length (List.filter (λ c, match c with Close => true | _ => false end) t).

(** The two comments that record a failed [archive()]. *)
Definition failure_comments (f : ContentItem * Error) : list string :=
  ["ARCHIVE FAILED: " +:+ Js.template (item_id f.1); f.2].

(** What the archive loop appends to the log of the run once [archive()]
    has answered [r] for [item]: lines 226-229. *)
Definition archive_log (item : ContentItem) (r : Outcome unit) : list Call :=
  match r with
  | Returned _ => [AddAction "MOVED" (item_id item)]
  | Thrown e =>
      [AddComment ("ARCHIVE FAILED: "
                   +:+ match item_id item with Some i => i | None => "undefined" end);
       AddComment e]
  end.

(** The items the run called [unarchive()] on, and what it printed. *)
Definition unarchive_calls (t : list Call) : list ContentItem :=
  omap (λ c, match c with Unarchive item _ => Some item | _ => None end) t.

Definition printed (t : list Call) : list string :=
  omap (λ c, match c with ConsoleLog msg => Some msg | _ => None end) t.

(** The test of line 170. *)
Definition not_active (item : ContentItem) : bool :=
  bool_decide (item_status item ≠ Some ACTIVE).

Section Service.
Context {W : Type} `{!Collaborators W}.

(** One turn of the revert pass, by what the service answers in the world
    [w] the turn begins in: the item cannot be fetched and a message is
    printed; the item is not active and [unarchive()] returns; the item is
    not active, [unarchive()] throws and a message is printed; the item is
    active and a message is printed.  The world the turn leaves is the one
    the last answer of the service has left. *)
Inductive revert_turn (id : string) (w : W) : unit → W → list Call → Prop :=
| turn_not_found e w1 :
    contentItems_get id w = (Thrown e, w1) →
    revert_turn id w () w1
      [ContentItemsGet id (Thrown e);
       ConsoleLog ("Could not find item with id " +:+ id +:+ ", skipping.")]
| turn_unarchived item w1 w2 :
    contentItems_get id w = (Returned item, w1) →
    item_status item ≠ Some ACTIVE →
    related_unarchive item w1 = (Returned (), w2) →
    revert_turn id w () w2
      [ContentItemsGet id (Returned item); Unarchive item (Returned ())]
| turn_unarchive_failed item e w1 w2 :
    contentItems_get id w = (Returned item, w1) →
    item_status item ≠ Some ACTIVE →
    related_unarchive item w1 = (Thrown e, w2) →
    revert_turn id w () w2
      [ContentItemsGet id (Returned item); Unarchive item (Thrown e);
       ConsoleLog ("Could not unarchive item with id " +:+ id +:+ ", skipping.")]
| turn_already_active item w1 :
    contentItems_get id w = (Returned item, w1) →
    item_status item = Some ACTIVE →
    revert_turn id w () w1
      [ContentItemsGet id (Returned item);
       ConsoleLog ("Item with id " +:+ id +:+ " is already unarchived, skipping.")].

(** A recorded call is the call that was made: the collaborator, asked in
    the world [w], has given the recorded answer and left the world [w1].
    The calls of the log and of the console leave the world as it is. *)
Definition answered (c : Call) (w w1 : W) : Prop :=
  match c with
  | LoadFromFile path r => loadFromFile path w = (r, w1)
  | CopyHandler argv r => copy_handler argv w = (r, w1)
  | ContentItemsGet id r => contentItems_get id w = (r, w1)
  | Archive item r => related_archive item w = (r, w1)
  | Unarchive item r => related_unarchive item w = (r, w1)
  | ImportRevert args r => import_revert args w = (r, w1)
  | NewFileLog _ | AddAction _ _ | AddComment _ | Close | ConsoleLog _ => w1 = w
  end.

(** The calls [t] are what has happened between the worlds [w] and [w']:
    each was made in the world the one before had left, and nothing else
    has changed the world. *)
Fixpoint genuine (w : W) (t : list Call) (w' : W) : Prop :=
  match t with
  | [] => w' = w
  | c :: t' => ∃ w1, answered c w w1 ∧ genuine w1 t' w'
  end.

End Service.

End Move.

(** ** The event export command (commands/event/export.ts) *)

Module ExportEvent.

Inductive ExportResult := CREATED | UPDATED | UP_TO_DATE.

Global Instance ExportResult_eq_dec : EqDecision ExportResult.
Proof. solve_decision. Defined.

(** How a status is shown in the result column: the string it is in the
    source. *)
Definition ExportResult_text (s : ExportResult) : string :=
  match s with
  | CREATED => "CREATED"
  | UPDATED => "UPDATED"
  | UP_TO_DATE => "UP-TO-DATE"
  end.

(** The resources of dc-management-sdk-js, with the fields the command
    reads or writes.  [slots] and [editions] are the fields that
    [EditionWithSlots] and [EventWithEditions] add: [None] is undefined.
    The source updates these objects in place ([edition.slots = ...],
    [event.editions = ...], [delete event.id]); here an update gives a new
    value.  The two agree as long as the resources of a batch are distinct
    objects, as [paginator] builds them; the one update made to an object
    that is held twice, [delete event.id] on the event of a record that is
    also a value of the index, comes after the last read of the index. *)
Record EditionSlot := { slot_id : option string }.

Record Edition := {
  edition_id : option string;
  slots : option (list EditionSlot)
}.

Record Event := {
  event_id : option string;
  name : option string;
  start : option string;
  end_ : option string;
  editions : option (list Edition)
}.

Record Hub := { hub_id : option string }.

Global Instance EditionSlot_eq_dec : EqDecision EditionSlot.
Proof. solve_decision. Defined.
Global Instance Edition_eq_dec : EqDecision Edition.
Proof. solve_decision. Defined.
Global Instance Event_eq_dec : EqDecision Event.
Proof. solve_decision. Defined.

(** [edition.slots = slots], [event.editions = editions], [delete event.id] *)
Definition set_slots (edition : Edition) (s : list EditionSlot) : Edition :=
  {| edition_id := edition_id edition; slots := Some s |}.

Definition set_editions (event : Event) (eds : list Edition) : Event :=
  {| event_id := event_id event; name := name event; start := start event;
     end_ := end_ event; editions := Some eds |}.

Definition delete_id (event : Event) : Event :=
  {| event_id := None; name := name event; start := start event;
     end_ := end_ event; editions := editions event |}.

Record ExportRecord := {
  filename : string;
  status : ExportResult;
  event : Event
}.

Record ExportsMap := {
  uri : string;
  map_filename : string
}.

(** [{ [filename: string]: EventWithEditions }]: a JavaScript object lists
    its keys in the order they were added (the keys here are paths of
    files, none is an array index), and the functions below depend on
    that order through [Object.keys] and [Object.values]. *)
Definition Index : Type := list (string * Event).

Definition Object_keys (o : Index) : list string := o.*1.
Definition Object_values (o : Index) : list Event := o.*2.

(** [o[key] = v]: the value of a key the object has is replaced where it
    is, a new key is added last. *)
Fixpoint Object_set (key : string) (v : Event) (o : Index) : Index :=
  match o with
  | [] => [(key, v)]
  | (k, x) :: o' =>
      if bool_decide (k = key) then (k, v) :: o'
      else (k, x) :: Object_set key v o'
  end.

(** *** uniqueFilenamePath *)

(** Modelled from the spec: the place of a file in the output directory.
    [uniqueFilenamePath] of services/export.service is not part of the
    sources at hand; the spec has the exported files in the output
    directory, one per entity. *)
Definition in_directory (dir file : string) : string :=
  dir +:+ "/" +:+ file.

(** Modelled from the spec: the filenames [uniqueFilenamePath] may give for
    a display name.  The filename is "derived from the entity's display
    name", with "a numeric suffix" on collision; the scenario of the spec
    gives [x.json], then [x-1.json]. *)
Definition candidate (dir file extension : string) (counter : nat) : string :=
  match counter with
  | 0 => in_directory dir file +:+ "." +:+ extension
  | S _ => in_directory dir file +:+ "-" +:+ pretty counter +:+ "." +:+ extension
  end.

(** Modelled from the spec: "append a numeric suffix until unique".  The
    search tries the counters from [counter] on; [budget] is the number of
    candidates it may still find taken.  No more than [length used]
    candidates can be taken: see [uniqueFilenamePath_fresh]. *)
Fixpoint first_free (dir file extension : string) (used : list string)
    (budget counter : nat) : string :=
  let path := candidate dir file extension counter in
  match budget with
  | 0 => path
  | S budget' =>
      if bool_decide (path ∈ used)
      then first_free dir file extension used budget' (S counter)
      else path
  end.

(** Modelled from the spec: [uniqueFilenamePath] of services/export.service,
    which is not part of the sources at hand.  The new filename is
    "de-duplicated against both previously-existing filenames and filenames
    already allocated earlier in this same run"; both are the keys of the
    index it is called with.  A display name that is undefined counts as
    the empty name. *)
Definition uniqueFilenamePath (dir : string) (file : option string)
    (extension : string) (exportFilenames : list string) : string :=
  first_free dir (default "" file) extension exportFilenames
    (length exportFilenames) 0.

(** *** The diff engine *)

Definition getExportRecordForEvent (ev : Event) (outputDir : string)
    (previouslyExportedEvents : Index) : ExportRecord * Index :=
  let indexOfExportedContentType :=
    Js.findIndex (λ c, bool_decide (event_id c = event_id ev))
      (Object_values previouslyExportedEvents) in
  match indexOfExportedContentType with
  | None =>
      let filename :=
        uniqueFilenamePath outputDir (name ev) "json"
          (Object_keys previouslyExportedEvents) in
      ({| filename := filename; status := CREATED; event := ev |},
       Object_set filename ev previouslyExportedEvents)
  | Some i =>
      let filename := Object_keys previouslyExportedEvents !!! i in
      ({| filename := filename; status := UPDATED; event := ev |},
       previouslyExportedEvents)
  end.

(** The result is the pair of arrays the source returns and the index as
    the calls of [getExportRecordForEvent] have left it. *)
Fixpoint getEventExports (outputDir : string) (previouslyExportedEvents : Index)
    (eventsBeingExported : list Event)
  : list ExportRecord * list ExportsMap * Index :=
  match eventsBeingExported with
  | [] => ([], [], previouslyExportedEvents)
  | ev :: rest =>
      match event_id ev with
      | Some id =>
          if bool_decide (id = "")
          then getEventExports outputDir previouslyExportedEvents rest
          else
            let '(exportRecord, index1) :=
              getExportRecordForEvent ev outputDir previouslyExportedEvents in
            let '(allExports, updatedExportsMap, index2) :=
              getEventExports outputDir index1 rest in
            (exportRecord :: allExports,
             (if bool_decide (status exportRecord = UPDATED)
              then [{| uri := id; map_filename := filename exportRecord |}]
              else []) ++ updatedExportsMap,
             index2)
      | None => getEventExports outputDir previouslyExportedEvents rest
      end
  end.

(** *** The calls and the collaborators *)

(** The time value of a JavaScript [Date]; [None] is the invalid date,
    whose time value is NaN. *)
Definition Date : Type := option Z.

(** [a < b] and [a > b] on dates: false when either is invalid. *)
Definition Date_lt (a b : Date) : bool :=
  match a, b with
  | Some x, Some y => bool_decide (x < y)%Z
  | _, _ => false
  end.

Definition Date_gt (a b : Date) : bool := Date_lt b a.

(** The calls of the command, in the order of the source; a call whose
    answer the command uses, or that can throw, carries the answer.  The
    calls of the [FileLog], the writes to the table and to the standard
    output, and [nothingExportedExit] give nothing back and do not fail the
    caller; [nothingExportedExit] is only ever called with [exit] false,
    where it is the notice that nothing was exported. *)
Inductive Call :=
| NewFileLog (path : string)
| AppendLine (text : string)
| LogError (message : string) (e : Error)
| Close
| RelativeDate (relative : string) (r : Outcome Date)
| LoadJsonFromDirectory (dir : string) (r : Outcome Index)
| HubsGet (id : string) (r : Outcome Hub)
| EventsGet (id : string) (r : Outcome Event)
| ListEvents (hub : Hub) (r : Outcome (list Event))
| ListEditions (ev : Event) (r : Outcome (list Edition))
| ListSlots (edition : Edition) (r : Outcome (list EditionSlot))
| NothingExportedExit (msg : option string) (exit : bool)
| PromptToOverwriteExports (updatedExportsMap : list ExportsMap) (r : Outcome bool)
| EnsureDirectoryExists (dir : string) (r : Outcome unit)
| TableWrite (row : list string)
| WriteJsonToFile (filename : string) (ev : Event) (r : Outcome unit)
| StdoutWrite (text : string).

(** The collaborators.  [list_events], [list_editions] and [list_slots]
    are [paginator] applied to the [list] of the related resource.
    [Date_parse] is [new Date(s)] and [bold] is [chalk.bold]; both are
    functions of their argument alone. *)
Class Collaborators (W : Type) := {
  relativeDate : string → W → Outcome Date * W;
  loadJsonFromDirectory : string → W → Outcome Index * W;
  hubs_get : string → W → Outcome Hub * W;
  events_get : string → W → Outcome Event * W;
  list_events : Hub → W → Outcome (list Event) * W;
  list_editions : Event → W → Outcome (list Edition) * W;
  list_slots : Edition → W → Outcome (list EditionSlot) * W;
  promptToOverwriteExports : list ExportsMap → W → Outcome bool * W;
  ensureDirectoryExists : string → W → Outcome unit * W;
  writeJsonToFile : string → Event → W → Outcome unit * W;
  Date_parse : option string → Date;
  bold : string → string
}.

(** The fields of [argv] the handler reads. *)
Record Argv := {
  dir : string;
  fromDate : option string;
  toDate : option string;
  logFile : string;
  id : option string;
  hubId : string
}.

Section Handler.
Context {W : Type} `{!Collaborators W}.

Fixpoint enrichEditions (eds : list Edition) : Run W Call (list Edition) :=
  match eds with
  | [] => mret []
  | edition :: rest =>
      s ← call (list_slots edition) (ListSlots edition);
      rest' ← enrichEditions rest;
      mret (set_slots edition s :: rest')
  end.

(** The loop of [enrichEvents]; it gives the events as the loop leaves
    them.  [log] tells whether the optional log was passed. *)
Fixpoint enrichEvents_loop (log : bool) (events : list Event)
  : Run W Call (list Event) :=
  match events with
  | [] => mret []
  | ev :: rest =>
      (if log
       then emit (AppendLine ("Fetching " +:+ Js.template (name ev) +:+ " with editions."))
       else mret ());;
      ev' ← try_catch
              (eds ← call (list_editions ev) (ListEditions ev);
               withSlots ← enrichEditions eds;
               mret (set_editions ev withSlots))
              (λ e,
                 (if log
                  then emit (LogError ("Failed to fetch editions for "
                                       +:+ Js.template (name ev) +:+ ", skipping.") e)
                  else mret ());;
                 mret ev);
      rest' ← enrichEvents_loop log rest;
      mret (ev' :: rest')
  end.

Definition enrichEvents (events : list Event) (log : bool)
  : Run W Call (list Event) :=
  result ← enrichEvents_loop log events;
  mret (List.filter (λ ev, bool_decide (is_Some (editions ev))) result).

(** The body of the loop that writes the files: lines 189-193. *)
Definition write_export (r : ExportRecord) : Run W Call unit :=
  (if bool_decide (status r ≠ UP_TO_DATE)
   then call (writeJsonToFile (filename r) (delete_id (event r)))
             (WriteJsonToFile (filename r) (delete_id (event r)))
   else mret ());;
  emit (TableWrite [filename r; Js.or_else (name (event r)) ""; ExportResult_text (status r)]).

(** The condition of lines 176-179: no record at all, or records to
    overwrite and a user who answers no.  The user is asked only when
    the first test fails and there is a record to overwrite. *)
Definition nothing_to_write (allExports : list ExportRecord)
    (updatedExportsMap : list ExportsMap) : Run W Call bool :=
  if bool_decide (length allExports = 0) then mret true
  else if bool_decide (0 < length updatedExportsMap) then
    overwrite ← call (promptToOverwriteExports updatedExportsMap)
                     (PromptToOverwriteExports updatedExportsMap);
    mret (negb overwrite)
  else mret false.

Definition processEvents (outputDir : string) (previouslyExportedEvents : Index)
    (eventsBeingExported : list Event) : Run W Call unit :=
  if bool_decide (length eventsBeingExported = 0) then
    emit (NothingExportedExit (Some ("No events to export from this hub, exiting." +:+ Js.newline)) false)
  else
    enrichedEvents ← enrichEvents eventsBeingExported true;
    let '(allExports, updatedExportsMap, _) :=
      getEventExports outputDir previouslyExportedEvents enrichedEvents in
    stop ← nothing_to_write allExports updatedExportsMap;
    if (stop : bool) then
      emit (NothingExportedExit None false)
    else
      call (ensureDirectoryExists outputDir) (EnsureDirectoryExists outputDir);;
      emit (TableWrite [bold "File"; bold "Schema ID"; bold "Result"]);;
      for_of write_export allExports;;
      emit (StdoutWrite Js.newline).

Definition filterEvents (events : list Event) (from to : option Date)
  : list Event :=
  List.filter
    (λ ev,
       let eventStart := Date_parse (start ev) in
       let eventEnd := Date_parse (end_ ev) in
       match from with
       | Some f => if Date_lt eventEnd f then false
                   else match to with
                        | Some t => negb (Date_gt eventStart t)
                        | None => true
                        end
       | None => match to with
                 | Some t => negb (Date_gt eventStart t)
                 | None => true
                 end
       end)
    events.

(** [x === undefined ? undefined : relativeDate(x)] *)
Definition relative (x : option string) : Run W Call (option Date) :=
  match x with
  | None => mret None
  | Some s => d ← call (relativeDate s) (RelativeDate s); mret (Some d)
  end.

Definition handler (argv : Argv) : Run W Call unit :=
  emit (NewFileLog (logFile argv));;
  from ← relative (fromDate argv);
  to ← relative (toDate argv);
  previouslyExportedEvents ←
    call (loadJsonFromDirectory (dir argv)) (LoadJsonFromDirectory (dir argv));
  got ← try_catch
          (hub ← call (hubs_get (hubId argv)) (HubsGet (hubId argv));
           mret (Some hub))
          (λ e,
             emit (LogError ("Couldn't get hub with id " +:+ hubId argv +:+ ", aborting.") e);;
             emit Close;;
             mret None);
  match got with
  | None => mret ()
  | Some hub =>
      filteredEvents ←
        (if Js.truthy (id argv) then
           let i := default "" (id argv) in
           try_catch
             (ev ← call (events_get i) (EventsGet i);
              emit (AppendLine ("Exporting single event " +:+ Js.template (name ev) +:+ "."));;
              mret (Some [ev]))
             (λ e,
                emit (LogError ("Failed to get event with id " +:+ i +:+ ", aborting.") e);;
                emit Close;;
                mret None)
         else
           try_catch
             (storedEvents ← call (list_events hub) (ListEvents hub);
              let filtered := filterEvents storedEvents from to in
              emit (AppendLine ("Exporting " +:+ pretty (length filtered) +:+ " of "
                                +:+ pretty (length storedEvents) +:+ " events..."));;
              mret (Some filtered))
             (λ e,
                emit (LogError "Failed to list events." e);;
                mret (Some [])));
      match filteredEvents with
      | None => mret ()
      | Some events =>
          processEvents (dir argv) previouslyExportedEvents events;;
          emit (AppendLine "Done.");;
          emit Close
      end
  end.

End Handler.

(** *** What a batch and a run show *)

(** The IDs of the entities of a batch that get a record: [getEventExports]
    passes over an entity whose [id] is falsy. *)
Definition exported_ids (events : list Event) : list string :=
  omap (λ ev, match event_id ev with
              | Some i => if bool_decide (i = "") then None else Some i
              | None => None
              end) events.

Definition filenames (records : list ExportRecord) : list string :=
  filename <$> records.

Definition created (records : list ExportRecord) : list ExportRecord :=
  List.filter (λ r, bool_decide (status r = CREATED)) records.

(** The calls that create a directory or write a file. *)
Definition changes_disk (c : Call) : bool :=
  match c with
  | EnsureDirectoryExists _ _ | WriteJsonToFile _ _ _ => true
  | _ => false
  end.

(** A sequence of calls that leaves the disk as it is. *)
Definition calm (t : list Call) : Prop :=
  Forall (λ c, changes_disk c = false) t.

(** What stays of an event when its editions are fetched. *)
Definition described (ev : Event) : option string * option string * option string * option string :=
  (event_id ev, name ev, start ev, end_ ev).

(** The test of line 149, negated: the entity has an ID that is not empty. *)
Definition has_id (ev : Event) : bool := Js.truthy (event_id ev).

(** The line of the map of the files to overwrite that an UPDATED record
    gets: line 156. *)
Definition overwrite_line (r : ExportRecord) : option ExportsMap :=
  if bool_decide (status r = UPDATED)
  then Some {| uri := default "" (event_id (event r)); map_filename := filename r |}
  else None.

(** The entry of the index that a CREATED record has added: line 113. *)
Definition index_entry (r : ExportRecord) : string * Event := (filename r, event r).

(** The calls by kind. *)
Definition enrichment_call (c : Call) : bool :=
  match c with
  | AppendLine _ | LogError _ _ | ListEditions _ _ | ListSlots _ _ => true
  | _ => false
  end.

Definition output_call (c : Call) : bool :=
  match c with
  | TableWrite _ | StdoutWrite _ => true
  | WriteJsonToFile _ ev _ => bool_decide (event_id ev = None)
  | _ => false
  end.

Definition process_call (c : Call) : bool :=
  match c with
  | NothingExportedExit _ _ | PromptToOverwriteExports _ _ | EnsureDirectoryExists _ _ => true
  | _ => enrichment_call c || output_call c
  end.

Definition is_prompt (c : Call) : bool :=
  match c with PromptToOverwriteExports _ _ => true | _ => false end.

Definition log_closes (t : list Call) : nat :=
  length (List.filter (λ c, match c with Close => true | _ => false end) t).

Definition listings (t : list Call) : nat :=
  length (List.filter (λ c, match c with ListEvents _ _ => true | _ => false end) t).

Definition single_gets (t : list Call) : nat :=
  length (List.filter (λ c, match c with EventsGet _ _ => true | _ => false end) t).

Definition edition_listings (t : list Call) : list Event :=
  omap (λ c, match c with ListEditions ev _ => Some ev | _ => None end) t.

Definition slot_listings (t : list Call) : list Edition :=
  omap (λ c, match c with ListSlots edition _ => Some edition | _ => None end) t.

Definition written_files (t : list Call) : list string :=
  omap (λ c, match c with WriteJsonToFile f _ _ => Some f | _ => None end) t.

(** What [processEvents] does once the editions are fetched: it gives the
    notice that nothing was exported, with or without having asked, or it
    is left by the exception of the question or of the creation of the
    directory, or it creates the directory and writes. *)
Inductive asked : list Call → Prop :=
| asked_not : asked []
| asked_yes m : asked [PromptToOverwriteExports m (Returned true)].

Inductive process_tail (outputDir : string) : list Call → Prop :=
| tail_nothing msg : process_tail outputDir [NothingExportedExit msg false]
| tail_no_answer m e : process_tail outputDir [PromptToOverwriteExports m (Thrown e)]
| tail_declined m :
    process_tail outputDir
      [PromptToOverwriteExports m (Returned false); NothingExportedExit None false]
| tail_no_directory pre e :
    asked pre →
    process_tail outputDir (pre ++ [EnsureDirectoryExists outputDir (Thrown e)])
| tail_written pre rest :
    asked pre → Forall (λ c, output_call c = true) rest →
    process_tail outputDir (pre ++ EnsureDirectoryExists outputDir (Returned ()) :: rest).

(** The lines that the loop of [enrichEvents] writes to the log when it
    has one: lines 82-84 and 92-94. *)
Definition fetching (log : bool) (ev : Event) : list Call :=
  if log
  then [AppendLine ("Fetching "
                    +:+ match name ev with Some n => n | None => "undefined" end
                    +:+ " with editions.")]
  else [].

Definition skipping (log : bool) (ev : Event) (e : Error) : list Call :=
  if log
  then [LogError ("Failed to fetch editions for "
                  +:+ match name ev with Some n => n | None => "undefined" end
                  +:+ ", skipping.") e]
  else [].

Section Service.
Context {W : Type} `{!Collaborators W}.

(** The turn of an edition in [enrichEditions] when the listing of its
    slots, asked in the world [w], returns: the edition, with the ID it
    has, gets the slots that the listing has answered. *)
Inductive slots_turn (edition : Edition) (w : W) : Edition → W → list Call → Prop :=
| slots_listed s w1 :
    list_slots edition w = (Returned s, w1) →
    slots_turn edition w
      {| edition_id := edition_id edition; slots := Some s |} w1
      [ListSlots edition (Returned s)].

(** The turn of an event in the loop of [enrichEvents], by what the
    service answers in the world [w] the turn begins in: the editions are
    listed and [enrichEditions] returns them with their slots, which the
    event gets, its other fields staying as they are; the editions are
    listed and [enrichEditions] throws; the listing of the editions
    throws.  In the last two the event stays as it was. *)
Inductive editions_turn (log : bool) (ev : Event) (w : W)
  : Event → W → list Call → Prop :=
| editions_listed eds w1 withSlots w2 t :
    list_editions ev w = (Returned eds, w1) →
    enrichEditions eds w1 = (Returned withSlots, w2, t) →
    editions_turn log ev w
      {| event_id := event_id ev; name := name ev; start := start ev;
         end_ := end_ ev; editions := Some withSlots |} w2
      (fetching log ev ++ ListEditions ev (Returned eds) :: t)
| slots_not_listed eds w1 e w2 t :
    list_editions ev w = (Returned eds, w1) →
    enrichEditions eds w1 = (Thrown e, w2, t) →
    editions_turn log ev w ev w2
      (fetching log ev ++ ListEditions ev (Returned eds) :: t ++ skipping log ev e)
| editions_not_listed e w1 :
    list_editions ev w = (Thrown e, w1) →
    editions_turn log ev w ev w1
      (fetching log ev ++ ListEditions ev (Thrown e) :: skipping log ev e).

End Service.

End ExportEvent.

(** ** Small worlds to run the handlers in *)

(** A source hub whose items have a status, with a copy command whose
    answer is fixed in advance. *)
Module MoveWorld.
Import Move.

Record Hub := {
  items : list (string * Status);
  (** items of which the service refuses to change the status *)
  locked : list string;
  (** whether the service accepts [archive()] on an archived item *)
  rearchive : bool;
  copy_answer : Outcome (bool * list string);
  log_files : list (string * list LogItem)
}.

Definition lookup {A} (key : string) (l : list (string * A)) : option A :=
  snd <$> List.find (λ kv, bool_decide (kv.1 = key)) l.

Definition set_status (key : string) (s : Status) (h : Hub) : Hub :=
  {| items := (λ kv, if bool_decide (kv.1 = key) then (key, s) else kv) <$> items h;
     locked := locked h; rearchive := rearchive h;
     copy_answer := copy_answer h; log_files := log_files h |}.

Definition get (key : string) (h : Hub) : Outcome ContentItem * Hub :=
  match lookup key (items h) with
  | Some s => (Returned {| item_id := Some key; item_status := Some s |}, h)
  | None => (Thrown "Error: Request failed with status code 404", h)
  end.

Definition change (target : Status) (again : bool) (item : ContentItem) (h : Hub)
  : Outcome unit * Hub :=
  match item_id item with
  | Some key =>
      match lookup key (items h) with
      | Some s =>
          if bool_decide (key ∈ locked h)
          then (Thrown "Error: Request failed with status code 403", h)
          else if bool_decide (s = target) && negb again
          then (Thrown "Error: The action is not available", h)
          else (Returned (), set_status key target h)
      | None => (Thrown "Error: Request failed with status code 404", h)
      end
  | None => (Thrown "Error: The action is not available", h)
  end.

Global Instance collaborators : Collaborators Hub := {|
  copy_handler _ h := (copy_answer h, h);
  contentItems_get := get;
  related_archive item h := change ARCHIVED (rearchive h) item h;
  related_unarchive item h := change ACTIVE false item h;
  loadFromFile path h :=
    match lookup path (log_files h) with
    | Some entries => (Returned entries, h)
    | None => (Thrown "Error: ENOENT: no such file or directory", h)
    end;
  import_revert _ h := (Returned (), h)
|}.

Definition argv (revert : option string) : Argv :=
  {| hubId := "hub"; clientId := "client"; clientSecret := "secret";
     dstHubId := None; dstClientId := None; dstSecret := None;
     revertLog := revert; logFile := "move.log" |}.

Definition hub (its : list (string * Status)) (answer : Outcome (bool * list string)) : Hub :=
  {| items := its; locked := ["locked"]; rearchive := false;
     copy_answer := answer; log_files := [] |}.

(** The hub of the revert scenario: the log names four items; one is
    gone, one is archived, one is archived and locked, one is active. *)
Definition reverted : Hub :=
  {| items := [("item2", ARCHIVED); ("locked", ARCHIVED); ("item4", ACTIVE)];
     locked := ["locked"]; rearchive := false;
     copy_answer := Returned (true, []);
     log_files := [("move.log",
                    [Comment "moved"; Action "MOVED" "item1"; Action "MOVED" "item2";
                     Action "MOVED" "locked"; Action "ARCHIVE" "other";
                     Action "MOVED" "item4"])] |}.

End MoveWorld.

(** A hub of events with a directory of exported files and a user who has
    made up their mind. *)
Module ExportWorld.
Import ExportEvent.

Record Disk := {
  listing : Outcome (list Event);
  (** the display names of the events whose editions cannot be listed *)
  broken : list string;
  exported : Index;
  overwrite : bool;
  directories : list string;
  written : list (string * Event)
}.

Definition mkdir (d : string) (w : Disk) : Disk :=
  {| listing := listing w; broken := broken w; exported := exported w;
     overwrite := overwrite w; directories := d :: directories w;
     written := written w |}.

Definition write (f : string) (ev : Event) (w : Disk) : Disk :=
  {| listing := listing w; broken := broken w; exported := exported w;
     overwrite := overwrite w; directories := directories w;
     written := written w ++ [(f, ev)] |}.

(** The time values of the dates that the tests of [filterEvents] use. *)
Definition calendar : list (string * Z) :=
  [("2021-01-01T12:00:00.000Z", 1609502400000); ("2021-04-04T12:00:00.000Z", 1617537600000);
   ("2021-05-05T12:00:00.000Z", 1620216000000); ("2021-05-06T12:00:00.000Z", 1620302400000);
   ("2021-06-06T12:00:00.000Z", 1622980800000); ("2021-07-07T12:00:00.000Z", 1625659200000);
   ("2021-08-08T12:00:00.000Z", 1628424000000); ("2021-09-09T12:00:00.000Z", 1631188800000);
   ("2021-10-10T12:00:00.000Z", 1633867200000)]%Z.

Definition date (s : option string) : Date :=
  s ≫= λ x, snd <$> List.find (λ kv, bool_decide (kv.1 = x)) calendar.

Definition spanning (s e : string) : Event :=
  {| event_id := None; name := None; start := Some s; end_ := Some e; editions := None |}.

Global Instance collaborators : Collaborators Disk := {|
  relativeDate _ w := (Returned (Some 0%Z), w);
  loadJsonFromDirectory _ w := (Returned (exported w), w);
  hubs_get i w := (Returned {| hub_id := Some i |}, w);
  events_get _ w := (Thrown "Error: Request failed with status code 404", w);
  list_events _ w := (listing w, w);
  list_editions ev w :=
    if bool_decide (default "" (name ev) ∈ broken w)
    then (Thrown "Error: Request failed with status code 500", w)
    else (Returned [], w);
  list_slots _ w := (Returned [], w);
  promptToOverwriteExports _ w := (Returned (overwrite w), w);
  ensureDirectoryExists d w := (Returned (), mkdir d w);
  writeJsonToFile f ev w := (Returned (), write f ev w);
  Date_parse := date;
  bold s := s
|}.

Definition an_event (i : option string) (n : string) : Event :=
  {| event_id := i; name := Some n; start := None; end_ := None; editions := None |}.

Definition argv : Argv :=
  {| dir := "out"; fromDate := None; toDate := None; logFile := "export.log";
     id := None; hubId := "hub" |}.

Definition disk (l : Outcome (list Event)) (prev : Index) (answer : bool) : Disk :=
  {| listing := l; broken := []; exported := prev; overwrite := answer;
     directories := []; written := [] |}.

End ExportWorld.

(** A hub that may be out of reach, with at most one event to get by ID and
    a directory that cannot be created. *)
Module ExportOutage.
Import ExportEvent.

Record Service := {
  hub_up : bool;
  the_event : option Event;
  stored : list Event
}.

Global Instance collaborators : Collaborators Service := {|
  relativeDate _ w := (Returned (Some 0%Z), w);
  loadJsonFromDirectory _ w := (Returned [], w);
  hubs_get i w :=
    if hub_up w then (Returned {| hub_id := Some i |}, w)
    else (Thrown "Error: Request failed with status code 503", w);
  events_get _ w :=
    match the_event w with
    | Some ev => (Returned ev, w)
    | None => (Thrown "Error: Request failed with status code 404", w)
    end;
  list_events _ w := (Returned (stored w), w);
  list_editions _ w := (Returned [], w);
  list_slots _ w := (Returned [], w);
  promptToOverwriteExports _ w := (Returned true, w);
  ensureDirectoryExists _ w := (Thrown "Error: EACCES: permission denied", w);
  writeJsonToFile _ _ w := (Returned (), w);
  Date_parse := ExportWorld.date;
  bold s := s
|}.

Definition argv (i : option string) : Argv :=
  {| dir := "out"; fromDate := Some "-7:DAYS"; toDate := None; logFile := "export.log";
     id := i; hubId := "hub" |}.

End ExportOutage.

(** A hub whose events have editions, and whose editions have slots, with
    a directory that takes every file. *)
Module ExportCatalogue.
Import ExportEvent.

Record Shelf := {
  (** the editions of the events, by the ID of the event *)
  editions_of : list (string * list Edition);
  (** the slots of the editions, by the ID of the edition *)
  slots_of : list (string * list EditionSlot);
  files : list (string * Event)
}.

Definition find {A} (key : option string) (l : list (string * A)) : Outcome A :=
  match key ≫= λ k, snd <$> List.find (λ kv, bool_decide (kv.1 = k)) l with
  | Some x => Returned x
  | None => Thrown "Error: Request failed with status code 404"
  end.

Definition store (f : string) (ev : Event) (w : Shelf) : Shelf :=
  {| editions_of := editions_of w; slots_of := slots_of w;
     files := files w ++ [(f, ev)] |}.

Global Instance collaborators : Collaborators Shelf := {|
  relativeDate _ w := (Returned None, w);
  loadJsonFromDirectory _ w := (Returned [], w);
  hubs_get i w := (Returned {| hub_id := Some i |}, w);
  events_get _ w := (Thrown "Error: Request failed with status code 404", w);
  list_events _ w := (Returned [], w);
  list_editions ev w := (find (event_id ev) (editions_of w), w);
  list_slots edition w := (find (edition_id edition) (slots_of w), w);
  promptToOverwriteExports _ w := (Returned true, w);
  ensureDirectoryExists _ w := (Returned (), w);
  writeJsonToFile f ev w := (Returned (), store f ev w);
  Date_parse := ExportWorld.date;
  bold s := s
|}.

End ExportCatalogue.

(** ** Properties of the move command *)

Module MoveProofs.
Import Move.

Section Proofs.
Context {W : Type} `{!Collaborators W}.

Lemma for_of_cons {A} (body : A → Run W Call unit) x l w :
  for_of body (x :: l) w =
    match body x w with
    | (Returned _, w1, t1) =>
        let '(r, w2, t2) := for_of body l w1 in (r, w2, t1 ++ t2)
    | (Thrown e, w1, t1) => (Thrown e, w1, t1)
    end.
Proof. reflexivity. Qed.

(** One turn of the archive loop, by what the service answers. *)
Lemma archive_item_fetch_failed id w e w1 :
  contentItems_get id w = (Thrown e, w1) →
  archive_item id w = (Thrown e, w1, [ContentItemsGet id (Thrown e)]).
Proof.
  intros Hget. unfold archive_item, mbind, run_bind, call. by rewrite Hget.
Qed.

Lemma archive_item_archived id w item w1 w2 :
  contentItems_get id w = (Returned item, w1) →
  related_archive item w1 = (Returned (), w2) →
  archive_item id w =
    (Returned (), w2,
     [ContentItemsGet id (Returned item); Archive item (Returned ());
      AddAction "MOVED" (item_id item)]).
Proof.
  intros Hget Harchive.
  unfold archive_item, mbind, run_bind, call, try_catch, emit.
  by rewrite Hget, Harchive.
Qed.

Lemma archive_item_archive_failed id w item e w1 w2 :
  contentItems_get id w = (Returned item, w1) →
  related_archive item w1 = (Thrown e, w2) →
  archive_item id w =
    (Returned (), w2,
     [ContentItemsGet id (Returned item); Archive item (Thrown e);
      AddComment ("ARCHIVE FAILED: " +:+ Js.template (item_id item));
      AddComment e]).
Proof.
  intros Hget Harchive.
  unfold archive_item, mbind, run_bind, call, try_catch, emit.
  by rewrite Hget, Harchive.
Qed.

(** The three cases are all there are. *)
Lemma archive_item_cases id w :
  (∃ e w1, contentItems_get id w = (Thrown e, w1)) ∨
  (∃ item w1 w2,
     contentItems_get id w = (Returned item, w1) ∧
     related_archive item w1 = (Returned (), w2)) ∨
  (∃ item e w1 w2,
     contentItems_get id w = (Returned item, w1) ∧
     related_archive item w1 = (Thrown e, w2)).
Proof.
  destruct (contentItems_get id w) as [[item|e] w1] eqn:Hget; [|by eauto].
  destruct (related_archive item w1) as [[[]|e] w2] eqn:Harchive;
    right; [left|right]; eauto 10.
Qed.

Lemma for_of_trace {A} (body : A → Run W Call unit) x l w :
  trace (for_of body (x :: l) w) =
    trace (body x w) ++
    match outcome (body x w) with
    | Returned _ => trace (for_of body l (world (body x w)))
    | Thrown _ => []
    end.
Proof.
  rewrite for_of_cons. unfold trace, outcome, world.
  destruct (body x w) as [[[[]|e] w1] t1]; simpl.
  - by destruct (for_of body l w1) as [[r w2] t2].
  - by rewrite app_nil_r.
Qed.

(** A fetch that throws ends the archive loop: the IDs after it are not
    looked at. *)
Lemma archive_loop_fetch_failed id rest w e w1 :
  contentItems_get id w = (Thrown e, w1) →
  for_of archive_item (id :: rest) w = (Thrown e, w1, [ContentItemsGet id (Thrown e)]).
Proof.
  intros Hget. by rewrite for_of_cons, (archive_item_fetch_failed _ _ _ _ Hget).
Qed.

(** A call of [archive()] that throws does not: the loop goes on with the
    next ID. *)
Lemma archive_loop_archive_failed id rest w item e w1 w2 :
  contentItems_get id w = (Returned item, w1) →
  related_archive item w1 = (Thrown e, w2) →
  trace (for_of archive_item (id :: rest) w) =
    [ContentItemsGet id (Returned item); Archive item (Thrown e);
     AddComment ("ARCHIVE FAILED: " +:+ Js.template (item_id item));
     AddComment e] ++ trace (for_of archive_item rest w2).
Proof.
  intros Hget Harchive.
  by rewrite for_of_trace, (archive_item_archive_failed _ _ _ _ _ _ Hget Harchive).
Qed.

(** C1: on the forward path, when the copy command answers false, the
    handler returns at once: it has fetched no item, called [archive()]
    on none and appended no [MOVED] entry; the world is as the copy
    command left it. *)
Theorem no_archive_after_failed_copy argv w exported w1 :
  revertLog argv = None →
  copy_handler argv w = (Returned (false, exported), w1) →
  handler argv w =
    (Returned (), w1,
     [NewFileLog (Some (logFile argv));
      CopyHandler argv (Returned (false, exported))]) ∧
  fetch_attempts (trace (handler argv w)) = [] ∧
  archive_calls (trace (handler argv w)) = [] ∧
  moved (trace (handler argv w)) = [].
Proof.
  intros Hforward Hcopy.
  assert (handler argv w =
            (Returned (), w1,
             [NewFileLog (Some (logFile argv));
              CopyHandler argv (Returned (false, exported))])) as Hrun.
  { unfold handler. rewrite Hforward.
    unfold mbind, run_bind, emit, call. by rewrite Hcopy. }
  by rewrite Hrun.
Qed.

(** Over a whole archive loop: [archive()] was called on every item that
    was fetched; the [MOVED] entries are the IDs of the items for which
    the call returned, in order, and the comments are the two lines of
    each call that threw. *)
Lemma archive_loop_log exported w :
  let t := trace (for_of archive_item exported w) in
  archive_calls t = fetched t ∧
  moved t = item_id <$> archived t ∧
  comments t = archive_failures t ≫= failure_comments.
Proof.
  revert w. induction exported as [|id rest IH]; intros w; [done|].
  cbv zeta. rewrite for_of_trace.
  unfold archive_calls, fetched, moved, archived, comments, archive_failures.
  rewrite !omap_app, fmap_app, bind_app.
  destruct (archive_item_cases id w)
    as [(e & w1 & Hget)|[(item & w1 & w2 & Hget & Harchive)
                        |(item & e & w1 & w2 & Hget & Harchive)]].
  - by rewrite (archive_item_fetch_failed _ _ _ _ Hget).
  - rewrite (archive_item_archived _ _ _ _ _ Hget Harchive). simpl.
    destruct (IH w2) as (IH1 & IH2 & IH3).
    unfold archive_calls, fetched, moved, archived, comments, archive_failures
      in IH1, IH2, IH3.
    by rewrite IH1, IH2, IH3.
  - rewrite (archive_item_archive_failed _ _ _ _ _ _ Hget Harchive). simpl.
    destruct (IH w2) as (IH1 & IH2 & IH3).
    unfold archive_calls, fetched, moved, archived, comments, archive_failures
      in IH1, IH2, IH3.
    by rewrite IH1, IH2, IH3.
Qed.

(** A loop over [l1 ++ l2] whose turns for [l1] return goes on with [l2]
    in the world they have left. *)
Lemma for_of_app {A} (body : A → Run W Call unit) l1 l2 w w1 t1 :
  for_of body l1 w = (Returned (), w1, t1) →
  for_of body (l1 ++ l2) w =
    (outcome (for_of body l2 w1), world (for_of body l2 w1),
     t1 ++ trace (for_of body l2 w1)).
Proof.
  revert w t1. induction l1 as [|x l1 IH]; intros w t1 Hrun.
  - injection Hrun as <- <-. simpl. by destruct (for_of body l2 w) as [[r w2] t2].
  - rewrite <-app_comm_cons, for_of_cons. rewrite for_of_cons in Hrun.
    destruct (body x w) as [[[[]|e] wx] tx]; [|done].
    destruct (for_of body l1 wx) as [[r wy] ty] eqn:Hl1.
    injection Hrun as -> -> <-.
    rewrite (IH _ _ Hl1). simpl. by rewrite app_assoc.
Qed.

(** C2, as the code has it: the archive phase does not look at the
    status of the item it has fetched.  For an ID that the loop reaches
    (the turns of the IDs before it have returned) and whose item the
    service gives, whatever the status of that item: the loop calls
    [archive()] on the item, once; when the call returns it appends the
    [MOVED] entry of the item, when it throws it appends the two comments
    instead; and it goes on with the IDs after it, in the world that
    [archive()] has left.  Over the whole loop, [archive()] was called on
    every item that was fetched, the [MOVED] entries are the IDs of the
    items for which it returned, and the comments are the two lines of
    each call that threw. *)
Theorem archive_phase_ignores_status before id after w w0 t0 item w1 r w2 :
  for_of archive_item before w = (Returned (), w0, t0) →
  contentItems_get id w0 = (Returned item, w1) →
  related_archive item w1 = (r, w2) →
  let run := for_of archive_item (before ++ id :: after) w in
  let rest := for_of archive_item after w2 in
  run =
    (outcome rest, world rest,
     t0 ++ [ContentItemsGet id (Returned item); Archive item r]
        ++ archive_log item r ++ trace rest) ∧
  archive_calls (trace run) = fetched (trace run) ∧
  moved (trace run) = item_id <$> archived (trace run) ∧
  comments (trace run) = archive_failures (trace run) ≫= failure_comments.
Proof.
  intros Hbefore Hget Harchive run rest.
  split; [|apply archive_loop_log].
  subst run rest. rewrite (for_of_app _ _ _ _ _ _ Hbefore), for_of_cons.
  destruct r as [[]|e].
  - rewrite (archive_item_archived _ _ _ _ _ Hget Harchive).
    by destruct (for_of archive_item after w2) as [[r w3] t3].
  - rewrite (archive_item_archive_failed _ _ _ _ _ _ Hget Harchive).
    by destruct (for_of archive_item after w2) as [[r w3] t3].
Qed.

(** One turn of the revert loop always returns, and it is one of the four
    turns of [revert_turn]. *)
Lemma unarchive_item_returns id w :
  ∃ w' t, unarchive_item id w = (Returned (), w', t) ∧ revert_turn id w () w' t.
Proof.
  unfold unarchive_item, mbind, run_bind, try_catch, call, emit, mret, run_ret.
  destruct (contentItems_get id w) as [[item|e] w1] eqn:Hget; simpl.
  - case_bool_decide as Hstatus; simpl.
    + destruct (related_unarchive item w1) as [[[]|e] w2] eqn:Hunarchive;
        simpl; eexists _, _; (split; [done|]).
      * by eapply turn_unarchived.
      * by eapply turn_unarchive_failed.
    + eexists _, _; split; [done|]. eapply turn_already_active; [done|].
      by destruct (decide (item_status item = Some ACTIVE)).
  - eexists _, _; split; [done|]. by apply turn_not_found.
Qed.



End Proofs.

Import MoveWorld.

Lemma no_archive_after_failed_copy_witness :
  let w := hub [("a", ACTIVE)] (Returned (false, ["a"])) in
  revertLog (argv None) = None ∧
  copy_handler (argv None) w = (Returned (false, ["a"]), w) ∧
  handler (argv None) w =
    (Returned (), w,
     [NewFileLog (Some "move.log"); CopyHandler (argv None) (Returned (false, ["a"]))]) ∧
  fetch_attempts (trace (handler (argv None) w)) = [] ∧
  archive_calls (trace (handler (argv None) w)) = [] ∧
  moved (trace (handler (argv None) w)) = [].
Proof.
  intros w. split; [reflexivity|]. split; [reflexivity|].
  apply (no_archive_after_failed_copy (argv None) w ["a"] w); reflexivity.
Defined.

Lemma archive_phase_ignores_status_witness :
  let w := hub [("a", ACTIVE); ("b", ARCHIVED); ("c", ACTIVE)]
               (Returned (true, ["a"; "b"; "c"])) in
  let a := {| item_id := Some "a"; item_status := Some ACTIVE |} in
  let b := {| item_id := Some "b"; item_status := Some ARCHIVED |} in
  let c := {| item_id := Some "c"; item_status := Some ACTIVE |} in
  let w0 := set_status "a" ARCHIVED w in
  let refused := "Error: The action is not available" in
  let t0 := [ContentItemsGet "a" (Returned a); Archive a (Returned ());
             AddAction "MOVED" (Some "a")] in
  for_of archive_item ["a"] w = (Returned (), w0, t0) ∧
  contentItems_get "b" w0 = (Returned b, w0) ∧
  related_archive b w0 = (Thrown refused, w0) ∧
  for_of archive_item ["a"; "b"; "c"] w =
    (Returned (), set_status "c" ARCHIVED w0,
     t0 ++ [ContentItemsGet "b" (Returned b); Archive b (Thrown refused);
            AddComment "ARCHIVE FAILED: b"; AddComment refused;
            ContentItemsGet "c" (Returned c); Archive c (Returned ());
            AddAction "MOVED" (Some "c")]).
Proof.
  intros w a b c w0 refused t0.
  split; [reflexivity|]. split; [reflexivity|]. split; [reflexivity|].
  exact (proj1 (archive_phase_ignores_status ["a"] "b" ["c"] w w0 t0 b w0
                  (Thrown refused) w0 eq_refl eq_refl eq_refl)).
Defined.

(** The scenario of the revert of a log that names an item that is gone,
    an archived item, an archived item that cannot be changed and an
    active item: each gets its turn, and the handler goes on to the revert
    of the import. *)
Lemma revert_scenario :
  let run := handler (argv (Some "move.log")) reverted in
  outcome run = Returned () ∧
  fetch_attempts (trace run) = ["item1"; "item2"; "locked"; "item4"] ∧
  items (world run) = [("item2", ACTIVE); ("locked", ARCHIVED); ("item4", ACTIVE)] ∧
  last (trace run) =
    Some (ImportRevert
            {| revert_hubId := "hub"; revert_clientId := "client";
               revert_clientSecret := "secret"; revert_dir := "";
               revert_revertLog := "move.log" |} (Returned ())).
Proof. vm_compute. done. Qed.

(** C2, the claim as it is written, fails: the hub has one item, [a],
    that is archived already, and the copy command reports it.  The
    handler fetches it and calls [archive()] on it once.  When the service
    refuses, two comments are appended for it; when the service accepts
    (the second hub), a [MOVED] entry is appended for it, and a second run
    appends it again. *)
Lemma archived_item_is_archived_again :
  let a := {| item_id := Some "a"; item_status := Some ARCHIVED |} in
  let strict := hub [("a", ARCHIVED)] (Returned (true, ["a"])) in
  let lenient :=
    {| items := [("a", ARCHIVED)]; locked := []; rearchive := true;
       copy_answer := Returned (true, ["a"]); log_files := [] |} in
  (fetched (trace (handler (argv None) strict)) = [a] ∧
   archive_calls (trace (handler (argv None) strict)) = [a] ∧
   comments (trace (handler (argv None) strict)) =
     ["ARCHIVE FAILED: a"; "Error: The action is not available"]) ∧
  (fetched (trace (handler (argv None) lenient)) = [a] ∧
   archive_calls (trace (handler (argv None) lenient)) = [a] ∧
   moved (trace (handler (argv None) lenient)) = [Some "a"] ∧
   moved (trace (handler (argv None) (world (handler (argv None) lenient)))) = [Some "a"]).
Proof. vm_compute. done. Qed.

(** C3, at the input where the code departs from it: the copy command
    reports [a] and [b], and [a] cannot be fetched.  The exception of the
    fetch leaves the handler: no comment is appended, [b] is never
    fetched and stays active at the source. *)
Theorem fetch_failure_aborts_archive_phase :
  let run := handler (argv None) (hub [("b", ACTIVE)] (Returned (true, ["a"; "b"]))) in
  outcome run = Thrown "Error: Request failed with status code 404" ∧
  fetch_attempts (trace run) = ["a"] ∧
  comments (trace run) = [] ∧
  items (world run) = [("b", ACTIVE)].
Proof. vm_compute. done. Qed.

(** C4, at the inputs where the code departs from it: the log is closed
    when the archive phase completes, and on no other way out.  After a
    copy that answers false the handler returns without [close()]; after
    a fetch that throws it is left without [close()]. *)
Theorem log_is_closed_on_completion_only :
  let completed := handler (argv None) (hub [("a", ACTIVE)] (Returned (true, ["a"]))) in
  let copy_failed := handler (argv None) (hub [("a", ACTIVE)] (Returned (false, []))) in
  let fetch_failed := handler (argv None) (hub [] (Returned (true, ["a"]))) in
  (outcome completed = Returned () ∧ closes (trace completed) = 1) ∧
  (outcome copy_failed = Returned () ∧ closes (trace copy_failed) = 0) ∧
  (outcome fetch_failed = Thrown "Error: Request failed with status code 404" ∧
   closes (trace fetch_failed) = 0).
Proof. vm_compute. done. Qed.

End MoveProofs.

(** ** Properties of the event export command *)

Module ExportProofs.
Import ExportEvent.

(** *** Strings *)

Lemma string_length_app (s1 s2 : string) :
  String.length (s1 +:+ s2) = String.length s1 + String.length s2.
Proof.
  induction s1 as [|a s1 IH]; [done|].
  change (S (String.length (s1 +:+ s2)) = S (String.length s1 + String.length s2)).
  by rewrite IH.
Qed.

Lemma string_app_cons a (s1 s2 : string) :
  String a s1 +:+ s2 = String a (s1 +:+ s2).
Proof. done. Qed.

Lemma string_app_inj_r (t s1 s2 : string) : s1 +:+ t = s2 +:+ t → s1 = s2.
Proof.
  revert s2. induction s1 as [|a s1 IH]; intros [|b s2] Heq; [done|..].
  - apply (f_equal String.length) in Heq.
    rewrite !string_length_app in Heq. simpl in Heq. lia.
  - apply (f_equal String.length) in Heq.
    rewrite !string_length_app in Heq. simpl in Heq. lia.
  - rewrite !string_app_cons in Heq. injection Heq as -> Heq.
    f_equal. by apply IH.
Qed.

(** *** uniqueFilenamePath *)

Lemma candidate_inj dir file extension :
  Inj (=) (=) (candidate dir file extension).
Proof.
  intros [|i] [|j] Heq; unfold candidate in Heq;
    apply (inj (String.app _)) in Heq; [done|done|done|].
  apply (inj (String.app "-")) in Heq.
  apply string_app_inj_r in Heq. by apply (inj pretty) in Heq.
Qed.

(** When the search ends on a filename in use, every candidate it was
    allowed to try is in use. *)
Lemma first_free_taken dir file extension used budget counter :
  first_free dir file extension used budget counter ∈ used →
  ∀ i : nat, (counter ≤ i ≤ counter + budget)%nat → candidate dir file extension i ∈ used.
Proof.
  revert counter. induction budget as [|budget IH]; intros counter Hin i Hi; simpl in Hin.
  - by replace i with counter by lia.
  - case_bool_decide as Htaken; [|done].
    destruct (decide (i = counter)) as [->|]; [done|].
    apply (IH (S counter)); [done|lia].
Qed.

Lemma first_free_fresh dir file extension used :
  first_free dir file extension used (length used) 0 ∉ used.
Proof.
  intros Hin.
  pose proof (first_free_taken _ _ _ _ _ _ Hin) as Hall.
  assert (candidate dir file extension <$> seq 0 (S (length used)) ⊆+ used) as Hsub.
  { apply NoDup_submseteq.
    - pose proof (candidate_inj dir file extension).
      apply (NoDup_fmap_2 _), NoDup_seq.
    - intros x (i & -> & Hi%elem_of_seq)%list_elem_of_fmap. apply Hall. lia. }
  apply submseteq_length in Hsub.
  rewrite length_fmap, length_seq in Hsub. lia.
Qed.

(** The search ends on the first candidate that is not in use. *)
Lemma first_free_first dir file extension used budget counter :
  ∃ n : nat,
    first_free dir file extension used budget counter = candidate dir file extension n ∧
    (counter ≤ n ≤ counter + budget)%nat ∧
    ∀ i : nat, (counter ≤ i < n)%nat → candidate dir file extension i ∈ used.
Proof.
  revert counter. induction budget as [|budget IH]; intros counter; simpl.
  - exists counter. split; [done|]. split; [lia|]. intros i Hi. lia.
  - case_bool_decide as Htaken.
    + destruct (IH (S counter)) as (n & -> & Hn & Hbelow).
      exists n. split; [done|]. split; [lia|]. intros i Hi.
      destruct (decide (i = counter)) as [->|]; [done|]. apply Hbelow. lia.
    + exists counter. split; [done|]. split; [lia|]. intros i Hi. lia.
Qed.

Lemma uniqueFilenamePath_fresh dir file extension exportFilenames :
  uniqueFilenamePath dir file extension exportFilenames ∉ exportFilenames.
Proof. apply first_free_fresh. Qed.

(** *** Objects *)

Lemma Object_set_new key v (o : Index) :
  key ∉ Object_keys o → Object_set key v o = o ++ [(key, v)].
Proof.
  unfold Object_keys. induction o as [|[k x] o IH]; intros Hnew; [done|].
  simpl in *. apply not_elem_of_cons in Hnew as [Hne Hnew].
  rewrite bool_decide_false by done. by rewrite IH.
Qed.

Lemma Object_entry_unique (o : Index) k a b :
  NoDup (Object_keys o) → (k, a) ∈ o → (k, b) ∈ o → a = b.
Proof.
  unfold Object_keys. induction o as [|[k' x] o IH]; intros Hnodup Ha Hb.
  - by apply elem_of_nil in Ha.
  - simpl in Hnodup. apply NoDup_cons in Hnodup as [Hfresh Hnodup].
    apply elem_of_cons in Ha as [Ha|Ha], Hb as [Hb|Hb]; simplify_eq.
    + done.
    + destruct Hfresh. apply list_elem_of_fmap. by exists (k', b).
    + destruct Hfresh. apply list_elem_of_fmap. by exists (k', a).
    + by apply IH.
Qed.

Lemma findIndex_Some {A} (p : A → bool) l i :
  Js.findIndex p l = Some i → ∃ x, l !! i = Some x ∧ p x = true.
Proof.
  revert i. induction l as [|y l IH]; intros i Hfind; [done|].
  simpl in Hfind. destruct (p y) eqn:Hy.
  - injection Hfind as <-. by exists y.
  - destruct (Js.findIndex p l) as [j|]; [|done].
    injection Hfind as <-. by apply IH.
Qed.

Lemma findIndex_None {A} (p : A → bool) l x :
  Js.findIndex p l = None → x ∈ l → p x = false.
Proof.
  induction l as [|y l IH]; intros Hfind Hx; [by apply elem_of_nil in Hx|].
  simpl in Hfind. destruct (p y) eqn:Hy; [done|].
  destruct (Js.findIndex p l) eqn:Hl; [done|].
  apply elem_of_cons in Hx as [->|Hx]; [done|]. by apply IH.
Qed.

(** *** The diff engine *)

Lemma getExportRecordForEvent_created ev outputDir (idx : Index) :
  Js.findIndex (λ c, bool_decide (event_id c = event_id ev)) (Object_values idx) = None →
  ∃ f,
    f = uniqueFilenamePath outputDir (name ev) "json" (Object_keys idx) ∧
    (f ∉ Object_keys idx) ∧
    getExportRecordForEvent ev outputDir idx =
      ({| filename := f; status := CREATED; event := ev |}, idx ++ [(f, ev)]).
Proof.
  intros Hnone. eexists. split; [done|].
  pose proof (uniqueFilenamePath_fresh outputDir (name ev) "json" (Object_keys idx)).
  split; [done|].
  unfold getExportRecordForEvent. rewrite Hnone. by rewrite Object_set_new.
Qed.

Lemma getExportRecordForEvent_updated ev outputDir (idx : Index) i :
  Js.findIndex (λ c, bool_decide (event_id c = event_id ev)) (Object_values idx) = Some i →
  ∃ f c,
    idx !! i = Some (f, c) ∧ event_id c = event_id ev ∧
    getExportRecordForEvent ev outputDir idx =
      ({| filename := f; status := UPDATED; event := ev |}, idx).
Proof.
  intros Hsome. unfold getExportRecordForEvent. rewrite Hsome.
  apply findIndex_Some in Hsome as (c & Hc & Hid%bool_decide_eq_true).
  unfold Object_values in Hc.
  apply list_lookup_fmap_Some_1 in Hc as ([f c'] & -> & Hentry).
  exists f, c'. split; [done|]. split; [done|].
  unfold Object_keys.
  by rewrite (list_lookup_total_correct _ i f) by (by rewrite list_lookup_fmap, Hentry).
Qed.

(** C8: the record [getExportRecordForEvent] gives never has the status
    UP-TO-DATE; and when an entry of the index has the ID of the entity,
    the record is UPDATED, its filename is the key of an entry of the
    index with that ID, and the index is left as it was. *)
Theorem matched_entity_is_updated ev outputDir (idx : Index) :
  status (getExportRecordForEvent ev outputDir idx).1 ≠ UP_TO_DATE ∧
  ((∃ f c, (f, c) ∈ idx ∧ event_id c = event_id ev) →
   ∃ f c,
     (f, c) ∈ idx ∧ event_id c = event_id ev ∧
     getExportRecordForEvent ev outputDir idx =
       ({| filename := f; status := UPDATED; event := ev |}, idx)).
Proof.
  destruct (Js.findIndex (λ c, bool_decide (event_id c = event_id ev))
              (Object_values idx)) as [i|] eqn:Hfind.
  - apply (getExportRecordForEvent_updated _ outputDir) in Hfind
      as (f & c & Hentry & Hid & ->).
    split; [done|]. intros _. exists f, c.
    split; [|done]. by eapply list_elem_of_lookup_2.
  - split.
    + by apply (getExportRecordForEvent_created _ outputDir) in Hfind
        as (f & _ & _ & ->).
    + intros (f & c & Hentry & Hid).
      assert (c ∈ Object_values idx) as Hc.
      { apply list_elem_of_fmap. by exists (f, c). }
      apply (findIndex_None _ _ _ Hfind) in Hc.
      by apply bool_decide_eq_false in Hc.
Qed.

Lemma matched_entity_is_updated_witness :
  let a := ExportWorld.an_event (Some "a") "x" in
  let idx := [("out/y.json", ExportWorld.an_event (Some "a") "y")] in
  (∃ f c, (f, c) ∈ idx ∧ event_id c = event_id a) ∧
  getExportRecordForEvent a "out" idx =
    ({| filename := "out/y.json"; status := UPDATED; event := a |}, idx).
Proof.
  intros a idx.
  assert (∃ f c, (f, c) ∈ idx ∧ event_id c = event_id a) as Hmatch.
  { exists "out/y.json", (ExportWorld.an_event (Some "a") "y").
    split; [apply list_elem_of_singleton|]; reflexivity. }
  split; [exact Hmatch|].
  destruct (proj2 (matched_entity_is_updated a "out" idx) Hmatch)
    as (f & c & Hentry & _ & Hrecord).
  apply list_elem_of_singleton in Hentry. injection Hentry as -> ->.
  exact Hrecord.
Defined.

Lemma created_cons r records :
  created (r :: records) =
    if bool_decide (status r = CREATED) then r :: created records else created records.
Proof. done. Qed.

(** What [getEventExports] keeps true of the index and of the records, for
    an index whose keys are distinct, as the keys of an object are. *)
Lemma getEventExports_index outputDir events :
  ∀ (idx : Index) all upd idx',
    getEventExports outputDir idx events = (all, upd, idx') →
    NoDup (Object_keys idx) →
    (∃ extra, idx' = idx ++ extra) ∧
    Object_keys idx' = Object_keys idx ++ filenames (created all) ∧
    NoDup (Object_keys idx') ∧
    (∀ r, r ∈ all →
          ∃ c i, (filename r, c) ∈ idx' ∧ event_id c = Some i ∧ i ∈ exported_ids events) ∧
    (NoDup (exported_ids events) → NoDup (filenames all)).
Proof.
  induction events as [|ev rest IH]; intros idx all upd idx' Hrun Hkeys.
  { injection Hrun as <- <- <-. split; [exists []; by rewrite app_nil_r|].
    split; [by rewrite app_nil_r|]. split; [done|].
    split; [by intros r ?%elem_of_nil|]. intros _. constructor. }
  simpl in Hrun. unfold exported_ids. simpl.
  destruct (event_id ev) as [i|] eqn:Hid; [|by eapply IH].
  case_bool_decide as Hempty; [by eapply IH|].
  destruct (getExportRecordForEvent ev outputDir idx) as [r index1] eqn:Hrecord.
  destruct (getEventExports outputDir index1 rest) as [[all' upd'] idx2] eqn:Hrest.
  injection Hrun as <- <- <-.
  assert (NoDup (Object_keys index1) ∧
          (∃ extra, index1 = idx ++ extra) ∧
          Object_keys index1 =
            Object_keys idx ++ (if bool_decide (status r = CREATED) then [filename r] else []) ∧
          ∃ c, (filename r, c) ∈ index1 ∧ event_id c = Some i)
    as (Hkeys1 & [extra1 Hextra1] & Hgrow1 & c & Hentry & Hc).
  { destruct (Js.findIndex (λ c, bool_decide (event_id c = event_id ev))
                (Object_values idx)) as [n|] eqn:Hfind.
    - apply (getExportRecordForEvent_updated _ outputDir) in Hfind
        as (f & c & Hlookup & Hc & Hupdated).
      rewrite Hupdated in Hrecord. injection Hrecord as <- <-. simpl.
      split; [done|]. split; [by exists []; rewrite app_nil_r|].
      split; [by rewrite app_nil_r|].
      exists c. split; [by eapply list_elem_of_lookup_2|congruence].
    - apply (getExportRecordForEvent_created _ outputDir) in Hfind
        as (f & _ & Hfresh & Hcreated).
      rewrite Hcreated in Hrecord. injection Hrecord as <- <-. simpl.
      unfold Object_keys in *. rewrite fmap_app. simpl.
      split.
      { apply NoDup_app. split; [done|]. split; [|apply NoDup_singleton].
        intros x Hx ->%list_elem_of_singleton. done. }
      split; [by eexists|]. split; [done|].
      exists ev. split; [|done]. apply elem_of_app. right. by apply list_elem_of_singleton. }
  destruct (IH _ _ _ _ Hrest Hkeys1) as ([extra2 Hextra2] & Hgrow2 & Hkeys2 & Hentries & Hdistinct).
  split; [exists (extra1 ++ extra2); by rewrite Hextra2, Hextra1, app_assoc|].
  split.
  { rewrite Hgrow2, Hgrow1, created_cons. unfold filenames.
    case_bool_decide; simpl; by rewrite <-app_assoc. }
  split; [done|]. split.
  - intros r' [->|Hr']%elem_of_cons.
    + exists c, i. split; [|split; [done|by left]].
      rewrite Hextra2. apply elem_of_app. by left.
    + destruct (Hentries r' Hr') as (c' & i' & ? & ? & ?).
      exists c', i'. split; [done|]. split; [done|]. by right.
  - intros [Hi Hids]%NoDup_cons. unfold filenames. simpl. apply NoDup_cons. split.
    + intros (r' & Hsame & Hr')%list_elem_of_fmap.
      destruct (Hentries r' Hr') as (c' & i' & Hentry' & Hc' & Hi').
      rewrite <-Hsame in Hentry'.
      assert ((filename r, c) ∈ idx2) as Hentry2.
      { rewrite Hextra2. apply elem_of_app. by left. }
      pose proof (Object_entry_unique _ _ _ _ Hkeys2 Hentry2 Hentry') as <-.
      assert (i = i') as <- by congruence. by apply Hi.
    + by apply Hdistinct.
Qed.

(** C6, as the code has it: the keys of the index being distinct, the
    filenames of the CREATED records are distinct from each other and from
    the keys the index had, and they are the keys the run has added to the
    index, in order; and when the entities that get a record have distinct
    IDs, no two records of the batch have the same filename. *)
Theorem export_filenames_are_unique outputDir (idx : Index) events :
  NoDup (Object_keys idx) →
  let result := getEventExports outputDir idx events in
  Object_keys result.2 = Object_keys idx ++ filenames (created result.1.1) ∧
  NoDup (Object_keys idx ++ filenames (created result.1.1)) ∧
  (NoDup (exported_ids events) → NoDup (filenames result.1.1)).
Proof.
  intros Hkeys result. subst result.
  destruct (getEventExports outputDir idx events) as [[all upd] idx'] eqn:Hrun.
  destruct (getEventExports_index _ _ _ _ _ _ Hrun Hkeys)
    as (_ & Hgrow & Hkeys' & _ & Hdistinct).
  simpl. split; [done|]. split; [|done]. by rewrite <-Hgrow.
Qed.

Lemma export_filenames_are_unique_witness :
  let idx := [("out/x.json", ExportWorld.an_event (Some "z") "x")] in
  let events := [ExportWorld.an_event (Some "a") "x";
                 ExportWorld.an_event None "x";
                 ExportWorld.an_event (Some "z") "y";
                 ExportWorld.an_event (Some "b") "x"] in
  NoDup (Object_keys idx) ∧
  NoDup (exported_ids events) ∧
  filenames (getEventExports "out" idx events).1.1 =
    ["out/x-1.json"; "out/x.json"; "out/x-2.json"] ∧
  NoDup (filenames (getEventExports "out" idx events).1.1).
Proof.
  intros idx events.
  assert (NoDup (Object_keys idx)) as Hkeys.
  { apply (bool_decide_unpack _). vm_compute. exact I. }
  assert (NoDup (exported_ids events)) as Hids.
  { apply (bool_decide_unpack _). vm_compute. exact I. }
  split; [exact Hkeys|]. split; [exact Hids|]. split; [vm_compute; reflexivity|].
  exact (proj2 (proj2 (export_filenames_are_unique "out" idx events Hkeys)) Hids).
Defined.

(** C6, the claim as it is written, fails: a batch that holds the entity
    with ID [a] twice, against an empty index, gets two records with one
    filename; the second is UPDATED and takes the filename the first was
    given. *)
Lemma same_id_twice_shares_a_filename :
  let a := ExportWorld.an_event (Some "a") "x" in
  filenames (getEventExports "out" [] [a; a]).1.1 = ["out/x.json"; "out/x.json"] ∧
  status <$> (getEventExports "out" [] [a; a]).1.1 = [CREATED; UPDATED].
Proof. vm_compute. done. Qed.


Lemma uniqueFilenamePath_unused dir file extension :
  uniqueFilenamePath dir (Some file) extension [] = candidate dir file extension 0.
Proof. done. Qed.

Lemma uniqueFilenamePath_once dir file extension :
  uniqueFilenamePath dir (Some file) extension [candidate dir file extension 0] =
    candidate dir file extension 1.
Proof.
  unfold uniqueFilenamePath. simpl length. simpl default.
  unfold first_free.
  rewrite bool_decide_true by (apply list_elem_of_singleton; reflexivity).
  done.
Qed.

Lemma two_new_records outputDir e1 e2 i1 i2 :
  event_id e1 = Some i1 → event_id e2 = Some i2 →
  i1 ≠ "" → i2 ≠ "" → i1 ≠ i2 →
  name e1 = Some "x" → name e2 = Some "x" →
  getEventExports outputDir [] [e1; e2] =
    ([{| filename := candidate outputDir "x" "json" 0; status := CREATED; event := e1 |};
      {| filename := candidate outputDir "x" "json" 1; status := CREATED; event := e2 |}],
     [],
     [(candidate outputDir "x" "json" 0, e1); (candidate outputDir "x" "json" 1, e2)]).
Proof.
  intros Hid1 Hid2 Hne1 Hne2 Hne Hname1 Hname2.
  unfold getEventExports. rewrite Hid1, Hid2.
  rewrite !bool_decide_false by done.
  unfold getExportRecordForEvent at 1. simpl Js.findIndex. cbv iota.
  rewrite Hname1. change (Object_keys []) with (@nil string).
  rewrite uniqueFilenamePath_unused.
  unfold Object_set.
  unfold getExportRecordForEvent. simpl Js.findIndex.
  rewrite Hid1, Hid2, bool_decide_false by congruence. simpl.
  rewrite Hname2, uniqueFilenamePath_once.
  rewrite bool_decide_false; [done|].
  change (in_directory outputDir "x" +:+ "." +:+ "json")
    with (candidate outputDir "x" "json" 0).
  by intros [=]%candidate_inj.
Qed.

(** A record that is UPDATED has its line in the map of the files to
    overwrite. *)
Lemma updated_record_is_listed outputDir events :
  ∀ (idx : Index) r,
    r ∈ (getEventExports outputDir idx events).1.1 → status r = UPDATED →
    0 < length (getEventExports outputDir idx events).1.2.
Proof.
  induction events as [|ev rest IH]; intros idx r Hr Hupdated; simpl in *.
  { by apply elem_of_nil in Hr. }
  destruct (event_id ev) as [i|]; [|by eapply IH].
  case_bool_decide; [by eapply IH|].
  destruct (getExportRecordForEvent ev outputDir idx) as [r1 index1].
  specialize (IH index1 r).
  destruct (getEventExports outputDir index1 rest) as [[all upd] idx2].
  simpl in *. apply elem_of_cons in Hr as [->|Hr].
  - rewrite bool_decide_true by done. simpl. lia.
  - rewrite length_app. specialize (IH Hr Hupdated). lia.
Qed.

(** *** The handler *)

Section Handler.
Context {W : Type} `{!Collaborators W}.

Lemma bind_trace {A B} (m : Run W Call A) (k : A → Run W Call B) w :
  trace ((m ≫= k) w) =
    trace (m w) ++
    match outcome (m w) with
    | Returned a => trace (k a (world (m w)))
    | Thrown _ => []
    end.
Proof.
  unfold mbind, run_bind. destruct (m w) as [[[a|e] w1] t1]; simpl.
  - by destruct (k a w1) as [[r w2] t2].
  - by rewrite app_nil_r.
Qed.

Lemma try_catch_trace {A} (m : Run W Call A) h w :
  trace (try_catch m h w) =
    trace (m w) ++
    match outcome (m w) with
    | Returned _ => []
    | Thrown e => trace (h e (world (m w)))
    end.
Proof.
  unfold try_catch. destruct (m w) as [[[a|e] w1] t1]; simpl.
  - by rewrite app_nil_r.
  - by destruct (h e w1) as [[r w2] t2].
Qed.

Lemma enrichEditions_calm eds w : calm (trace (enrichEditions eds w)).
Proof.
  revert w. induction eds as [|edition rest IH]; intros w; [constructor|].
  simpl enrichEditions. rewrite bind_trace. apply Forall_app. split.
  - unfold call. destruct (list_slots edition w) as [r w1]. by repeat constructor.
  - destruct (outcome _); [|constructor].
    rewrite bind_trace. apply Forall_app. split; [apply IH|].
    destruct (outcome _); constructor.
Qed.

Lemma enrichEvents_loop_calm log events w :
  calm (trace (enrichEvents_loop log events w)).
Proof.
  revert w. induction events as [|ev rest IH]; intros w; [constructor|].
  simpl enrichEvents_loop. rewrite bind_trace. apply Forall_app. split.
  { destruct log; by repeat constructor. }
  destruct (outcome _); [|constructor].
  rewrite bind_trace. apply Forall_app. split.
  - rewrite try_catch_trace. apply Forall_app. split.
    + rewrite bind_trace. apply Forall_app. split.
      * unfold call. destruct (list_editions ev _) as [r w1]. by repeat constructor.
      * destruct (outcome _); [|constructor].
        rewrite bind_trace. apply Forall_app. split; [apply enrichEditions_calm|].
        destruct (outcome _); constructor.
    + destruct (outcome _); [constructor|].
      rewrite bind_trace. apply Forall_app. split.
      * destruct log; by repeat constructor.
      * destruct (outcome _); constructor.
  - destruct (outcome _); [|constructor].
    rewrite bind_trace. apply Forall_app. split; [apply IH|].
    destruct (outcome _); constructor.
Qed.

Lemma enrichEvents_calm events log w : calm (trace (enrichEvents events log w)).
Proof.
  unfold enrichEvents. rewrite bind_trace. apply Forall_app.
  split; [apply enrichEvents_loop_calm|]. destruct (outcome _); constructor.
Qed.

Lemma enrichEvents_nil log w : enrichEvents [] log w = (Returned [], w, []).
Proof. done. Qed.

(** C9: when a record of the run is UPDATED, the first thing
    [processEvents] does after fetching the editions, which creates no
    directory and writes no file, is to ask the user, with the map of
    the files to overwrite.  When the answer is no, the run ends there
    with the notice that nothing was exported: no directory was created
    and no file written. *)
Theorem overwrite_is_confirmed_first outputDir (idx : Index) events w enriched w1 t1 :
  enrichEvents events true w = (Returned enriched, w1, t1) →
  (∃ r, r ∈ (getEventExports outputDir idx enriched).1.1 ∧ status r = UPDATED) →
  let updatedExportsMap := (getEventExports outputDir idx enriched).1.2 in
  let asked := promptToOverwriteExports updatedExportsMap w1 in
  calm t1 ∧
  (∃ rest,
     trace (processEvents outputDir idx events w) =
       t1 ++ PromptToOverwriteExports updatedExportsMap asked.1 :: rest) ∧
  (asked.1 = Returned false →
   processEvents outputDir idx events w =
     (Returned (), asked.2,
      t1 ++ [PromptToOverwriteExports updatedExportsMap (Returned false);
             NothingExportedExit None false]) ∧
   calm (trace (processEvents outputDir idx events w))).
Proof.
  intros Henrich (r & Hr & Hupdated) updatedExportsMap asked.
  assert (calm t1) as Hcalm.
  { pose proof (enrichEvents_calm events true w) as Hc. by rewrite Henrich in Hc. }
  assert (0 < length updatedExportsMap) as Hlisted
    by by eapply updated_record_is_listed.
  assert (events ≠ []) as Hevents.
  { intros ->. rewrite enrichEvents_nil in Henrich. injection Henrich as <- _ _.
    simpl in Hr. by apply elem_of_nil in Hr. }
  subst updatedExportsMap asked.
  remember (processEvents outputDir idx events w) as run eqn:Hrun.
  unfold processEvents in Hrun.
  rewrite bool_decide_false in Hrun by (by destruct events).
  unfold mbind at 1, run_bind at 1 in Hrun. rewrite Henrich in Hrun.
  destruct (getEventExports outputDir idx enriched) as [[all upd] idx'] eqn:Hexports.
  simpl in Hr, Hlisted |- *.
  unfold nothing_to_write in Hrun.
  rewrite bool_decide_false in Hrun
    by (destruct all; [by apply elem_of_nil in Hr|done]).
  rewrite bool_decide_true in Hrun by done.
  unfold mbind, run_bind, call in Hrun.
  destruct (promptToOverwriteExports upd w1) as [[[]|e] w2] eqn:Hasked;
    simpl in Hrun |- *.
  - split; [done|]. split; [|done].
    destruct (ensureDirectoryExists outputDir w2) as [[[]|e] w3]; simpl in Hrun.
    + destruct (for_of write_export all w3) as [[[[]|e] w4] t4];
        simpl in Hrun; subst run; by eexists.
    + subst run. by eexists.
  - subst run. split; [done|]. split; [by eexists|]. intros _. split; [done|].
    apply Forall_app. split; [done|]. by repeat constructor.
  - subst run. split; [done|]. split; [by eexists|]. done.
Qed.

(** C7, as the code has it: a batch of two entities that both have the
    display name [x], with IDs that are not empty and differ, exported
    against an empty index.  When the editions of both and the slots of
    those editions can be listed, the two entities, with their editions,
    get two CREATED records, the first with the filename of the name and
    the second with the suffix [-1]; and when the directory can be created
    and the files written, [processEvents] writes both files, without
    asking. *)
Theorem two_new_entities_named_x outputDir e1 e2 i1 i2
    w eds1 w1 with1 w2 t1 eds2 w3 with2 w4 t2 w5 w6 w7 :
  event_id e1 = Some i1 → event_id e2 = Some i2 →
  i1 ≠ "" → i2 ≠ "" → i1 ≠ i2 →
  name e1 = Some "x" → name e2 = Some "x" →
  let f1 := candidate outputDir "x" "json" 0 in
  let f2 := candidate outputDir "x" "json" 1 in
  let x1 := {| event_id := Some i1; name := Some "x"; start := start e1;
               end_ := end_ e1; editions := Some with1 |} in
  let x2 := {| event_id := Some i2; name := Some "x"; start := start e2;
               end_ := end_ e2; editions := Some with2 |} in
  let json1 := {| event_id := None; name := Some "x"; start := start e1;
                  end_ := end_ e1; editions := Some with1 |} in
  let json2 := {| event_id := None; name := Some "x"; start := start e2;
                  end_ := end_ e2; editions := Some with2 |} in
  list_editions e1 w = (Returned eds1, w1) →
  enrichEditions eds1 w1 = (Returned with1, w2, t1) →
  list_editions e2 w2 = (Returned eds2, w3) →
  enrichEditions eds2 w3 = (Returned with2, w4, t2) →
  ensureDirectoryExists outputDir w4 = (Returned (), w5) →
  writeJsonToFile f1 json1 w5 = (Returned (), w6) →
  writeJsonToFile f2 json2 w6 = (Returned (), w7) →
  (getEventExports outputDir [] [x1; x2]).1 =
    ([{| filename := f1; status := CREATED; event := x1 |};
      {| filename := f2; status := CREATED; event := x2 |}], []) ∧
  processEvents outputDir [] [e1; e2] w =
    (Returned (), w7,
     [AppendLine "Fetching x with editions."; ListEditions e1 (Returned eds1)] ++ t1 ++
     [AppendLine "Fetching x with editions."; ListEditions e2 (Returned eds2)] ++ t2 ++
     [EnsureDirectoryExists outputDir (Returned ());
      TableWrite [bold "File"; bold "Schema ID"; bold "Result"];
      WriteJsonToFile f1 json1 (Returned ());
      TableWrite [f1; "x"; "CREATED"];
      WriteJsonToFile f2 json2 (Returned ());
      TableWrite [f2; "x"; "CREATED"];
      StdoutWrite Js.newline]).
Proof.
  intros Hid1 Hid2 Hne1 Hne2 Hne Hname1 Hname2 f1 f2 x1 x2 json1 json2
    Hlist1 Hslots1 Hlist2 Hslots2 Hdir Hwrite1 Hwrite2.
  assert (set_editions e1 with1 = x1) as Hx1
    by (unfold set_editions; by rewrite Hid1, Hname1).
  assert (set_editions e2 with2 = x2) as Hx2
    by (unfold set_editions; by rewrite Hid2, Hname2).
  pose proof (two_new_records outputDir x1 x2 i1 i2
                eq_refl eq_refl Hne1 Hne2 Hne eq_refl eq_refl) as Hrecords.
  fold f1 f2 in Hrecords. rewrite Hrecords. split; [done|].
  assert (enrichEvents [e1; e2] true w =
            (Returned [x1; x2], w4,
             [AppendLine "Fetching x with editions."; ListEditions e1 (Returned eds1)] ++ t1 ++
             [AppendLine "Fetching x with editions."; ListEditions e2 (Returned eds2)] ++ t2))
    as Henrich.
  { unfold enrichEvents, enrichEvents_loop.
    unfold mbind, run_bind, try_catch, call, emit, mret, run_ret.
    rewrite Hlist1, Hslots1, Hlist2, Hslots2, Hname1, Hname2. simpl.
    by rewrite !app_nil_r, Hx1, Hx2. }
  unfold processEvents. rewrite bool_decide_false by done.
  unfold mbind at 1, run_bind at 1. rewrite Henrich, Hrecords.
  unfold nothing_to_write. simpl length.
  rewrite bool_decide_false by done. rewrite bool_decide_false by lia.
  unfold for_of, write_export. simpl status. simpl filename. simpl event.
  rewrite !bool_decide_true by done.
  unfold mbind, run_bind, call, emit, mret, run_ret.
  change (delete_id x1) with json1. change (delete_id x2) with json2.
  rewrite Hdir, Hwrite1, Hwrite2. simpl. by rewrite <-!app_assoc.
Qed.

Lemma relative_calm x w : calm (trace (relative x w)).
Proof.
  destruct x as [s|]; [|constructor]. unfold relative, mbind, run_bind, call.
  destruct (relativeDate s w) as [[d|e] w1]; by repeat constructor.
Qed.

(** C10: without an [id], when the events of the hub cannot be listed,
    the handler logs the error and goes on with no event: it gives the
    notice that there is nothing to export, appends the last line,
    closes the log and returns.  It has created no directory and
    written no file. *)
Theorem listing_failure_is_not_fatal argv w from w1 t1 to w2 t2 prev w3 hub w4 e w5 :
  Js.truthy (id argv) = false →
  relative (fromDate argv) w = (Returned from, w1, t1) →
  relative (toDate argv) w1 = (Returned to, w2, t2) →
  loadJsonFromDirectory (dir argv) w2 = (Returned prev, w3) →
  hubs_get (hubId argv) w3 = (Returned hub, w4) →
  list_events hub w4 = (Thrown e, w5) →
  handler argv w =
    (Returned (), w5,
     NewFileLog (logFile argv) :: t1 ++ t2 ++
     [LoadJsonFromDirectory (dir argv) (Returned prev);
      HubsGet (hubId argv) (Returned hub);
      ListEvents hub (Thrown e);
      LogError "Failed to list events." e;
      NothingExportedExit
        (Some ("No events to export from this hub, exiting." +:+ Js.newline)) false;
      AppendLine "Done.";
      Close]) ∧
  calm (trace (handler argv w)).
Proof.
  intros Hid Hfrom Hto Hload Hhub Hlist.
  assert (handler argv w =
    (Returned (), w5,
     NewFileLog (logFile argv) :: t1 ++ t2 ++
     [LoadJsonFromDirectory (dir argv) (Returned prev);
      HubsGet (hubId argv) (Returned hub);
      ListEvents hub (Thrown e);
      LogError "Failed to list events." e;
      NothingExportedExit
        (Some ("No events to export from this hub, exiting." +:+ Js.newline)) false;
      AppendLine "Done.";
      Close])) as Hrun.
  { unfold handler. rewrite Hid.
    unfold mbind, run_bind, try_catch, call, emit, mret, run_ret.
    by rewrite Hfrom, Hto, Hload, Hhub, Hlist. }
  split; [done|]. rewrite Hrun. simpl.
  pose proof (relative_calm (fromDate argv) w) as Hc1. rewrite Hfrom in Hc1.
  pose proof (relative_calm (toDate argv) w1) as Hc2. rewrite Hto in Hc2.
  constructor; [done|]. apply Forall_app. split; [done|].
  apply Forall_app. split; [done|]. by repeat constructor.
Qed.

End Handler.

Import ExportWorld.

(** The four tests of [filterEvents] of the source. *)
Lemma filterEvents_tests :
  let e0 := spanning "2021-01-01T12:00:00.000Z" "2021-05-05T12:00:00.000Z" in
  let e1 := spanning "2021-04-04T12:00:00.000Z" "2021-06-06T12:00:00.000Z" in
  let e2 := spanning "2021-08-08T12:00:00.000Z" "2021-09-09T12:00:00.000Z" in
  let e3 := spanning "2021-01-01T12:00:00.000Z" "2021-10-10T12:00:00.000Z" in
  let testEvents := [e0; e1; e2; e3] in
  filterEvents testEvents None None = testEvents ∧
  filterEvents testEvents (Some (date (Some "2021-08-08T12:00:00.000Z"))) None = [e2; e3] ∧
  filterEvents testEvents None (Some (date (Some "2021-07-07T12:00:00.000Z"))) = [e0; e1; e3] ∧
  filterEvents testEvents (Some (date (Some "2021-05-06T12:00:00.000Z")))
    (Some (date (Some "2021-07-07T12:00:00.000Z"))) = [e1; e3].
Proof. vm_compute. done. Qed.

(** The test of [enrichEvents] in which the editions cannot be listed: the
    events are left out. *)
Lemma enrichEvents_omits_failed :
  let w := {| listing := Returned []; broken := ["test1"; "test2"]; exported := [];
              overwrite := true; directories := []; written := [] |} in
  outcome (enrichEvents [an_event (Some "test1") "test1"; an_event (Some "test2") "test2"]
             false w) = Returned [].
Proof. vm_compute. done. Qed.

Lemma overwrite_is_confirmed_first_witness :
  let events := [an_event (Some "a") "x"; an_event (Some "b") "x"] in
  let enriched := [set_editions (an_event (Some "a") "x") [];
                   set_editions (an_event (Some "b") "x") []] in
  let idx := [("out/y.json", an_event (Some "a") "y")] in
  let w := disk (Returned events) idx false in
  let t1 := [AppendLine "Fetching x with editions.";
             ListEditions (an_event (Some "a") "x") (Returned []);
             AppendLine "Fetching x with editions.";
             ListEditions (an_event (Some "b") "x") (Returned [])] in
  let updatedExportsMap := [{| uri := "a"; map_filename := "out/y.json" |}] in
  enrichEvents events true w = (Returned enriched, w, t1) ∧
  (∃ r, r ∈ (getEventExports "out" idx enriched).1.1 ∧ status r = UPDATED) ∧
  processEvents "out" idx events w =
    (Returned (), w,
     t1 ++ [PromptToOverwriteExports updatedExportsMap (Returned false);
            NothingExportedExit None false]) ∧
  calm (trace (processEvents "out" idx events w)).
Proof.
  intros events enriched idx w t1 updatedExportsMap.
  assert (enrichEvents events true w = (Returned enriched, w, t1)) as Henrich
    by reflexivity.
  assert (∃ r, r ∈ (getEventExports "out" idx enriched).1.1 ∧ status r = UPDATED)
    as Hupdated.
  { eexists. split; [apply list_elem_of_here|reflexivity]. }
  split; [exact Henrich|]. split; [exact Hupdated|].
  exact (proj2 (proj2 (overwrite_is_confirmed_first "out" idx events w enriched w t1
                         Henrich Hupdated)) eq_refl).
Defined.

Lemma two_new_entities_named_x_witness :
  let a := an_event (Some "a") "x" in
  let b := an_event (Some "b") "x" in
  let spring := {| edition_id := Some "spring"; slots := None |} in
  let banner := {| slot_id := Some "banner" |} in
  let listed := [{| edition_id := Some "spring"; slots := Some [banner] |}] in
  let w := {| ExportCatalogue.editions_of := [("a", [spring]); ("b", [])];
              ExportCatalogue.slots_of := [("spring", [banner])];
              ExportCatalogue.files := [] |} in
  list_editions a w = (Returned [spring], w) ∧
  enrichEditions [spring] w = (Returned listed, w, [ListSlots spring (Returned [banner])]) ∧
  list_editions b w = (Returned [], w) ∧
  (filename <$> (getEventExports "out" []
                   [{| event_id := Some "a"; name := Some "x"; start := None;
                       end_ := None; editions := Some listed |};
                    {| event_id := Some "b"; name := Some "x"; start := None;
                       end_ := None; editions := Some [] |}]).1.1 =
     ["out/x.json"; "out/x-1.json"]) ∧
  outcome (processEvents "out" [] [a; b] w) = Returned () ∧
  ExportCatalogue.files (world (processEvents "out" [] [a; b] w)) =
    [("out/x.json",
      {| event_id := None; name := Some "x"; start := None; end_ := None;
         editions := Some listed |});
     ("out/x-1.json",
      {| event_id := None; name := Some "x"; start := None; end_ := None;
         editions := Some [] |})].
Proof.
  intros a b spring banner listed w.
  split; [reflexivity|]. split; [reflexivity|]. split; [reflexivity|].
  destruct (two_new_entities_named_x "out" a b "a" "b"
              w [spring] w listed w [ListSlots spring (Returned [banner])]
              [] w [] w []
              w
              (ExportCatalogue.store "out/x.json"
                 {| event_id := None; name := Some "x"; start := None; end_ := None;
                    editions := Some listed |} w)
              (ExportCatalogue.store "out/x-1.json"
                 {| event_id := None; name := Some "x"; start := None; end_ := None;
                    editions := Some [] |}
                 (ExportCatalogue.store "out/x.json"
                    {| event_id := None; name := Some "x"; start := None; end_ := None;
                       editions := Some listed |} w)))
    as [Hrecords Hrun]; try reflexivity; try discriminate.
  split; [exact (f_equal (λ x, filename <$> x.1) Hrecords)|].
  rewrite Hrun. split; reflexivity.
Defined.

(** C7, the claim as it is written, fails: the two entities of the
    scenario have no ID, and [getEventExports] passes over an entity
    without ID.  There is no record, and the run ends with the notice that
    nothing was exported: no file is written, no directory created. *)
Lemma entities_without_id_get_no_record :
  let x := an_event None "x" in
  let w := disk (Returned [x; x]) [] true in
  getEventExports "out" [] [set_editions x []; set_editions x []] = ([], [], []) ∧
  processEvents "out" [] [x; x] w =
    (Returned (), w,
     [AppendLine "Fetching x with editions."; ListEditions x (Returned []);
      AppendLine "Fetching x with editions."; ListEditions x (Returned []);
      NothingExportedExit None false]) ∧
  written (world (processEvents "out" [] [x; x] w)) = [] ∧
  directories (world (processEvents "out" [] [x; x] w)) = [].
Proof. vm_compute. done. Qed.

Lemma listing_failure_is_not_fatal_witness :
  let w := disk (Thrown "Error: Request failed with status code 500") [] true in
  handler argv w =
    (Returned (), w,
     [NewFileLog "export.log";
      LoadJsonFromDirectory "out" (Returned []);
      HubsGet "hub" (Returned {| hub_id := Some "hub" |});
      ListEvents {| hub_id := Some "hub" |}
        (Thrown "Error: Request failed with status code 500");
      LogError "Failed to list events." "Error: Request failed with status code 500";
      NothingExportedExit
        (Some ("No events to export from this hub, exiting." +:+ Js.newline)) false;
      AppendLine "Done.";
      Close]) ∧
  calm (trace (handler argv w)).
Proof.
  intros w.
  apply (listing_failure_is_not_fatal argv w None w [] None w [] [] w
           {| hub_id := Some "hub" |} w
           "Error: Request failed with status code 500" w); reflexivity.
Defined.

End ExportProofs.

(** ** More on the move command *)

Module MoveExtras.
Import Move.

Section Proofs.
Context {W : Type} `{!Collaborators W}.

(** What the calls of one turn of the revert loop show. *)
Lemma revert_turn_calls id w u w' t :
  revert_turn id w u w' t →
  fetch_attempts t = [id] ∧
  unarchive_calls t = List.filter not_active (fetched t) ∧
  archive_calls t = [] ∧ moved t = [] ∧ comments t = [] ∧ closes t = 0.
Proof.
  unfold not_active.
  intros [e w1 Hget|item w1 w2 Hget Hstatus Hun|item e w1 w2 Hget Hstatus Hun
         |item w1 Hget Hstatus]; simpl;
    rewrite ?bool_decide_true by done;
    rewrite ?bool_decide_false by (by intros []); done.
Qed.

Lemma genuine_app w t1 w1 t2 w2 :
  genuine w t1 w1 → genuine w1 t2 w2 → genuine w (t1 ++ t2) w2.
Proof.
  revert w. induction t1 as [|c t1 IH]; intros w; simpl.
  - by intros ->.
  - intros (wc & Hc & Ht1) Ht2. exists wc. split; [done|]. by apply IH.
Qed.

(** The calls of a turn of the revert loop are the calls that were made. *)
Lemma revert_turn_genuine id w u w' t :
  revert_turn id w u w' t → genuine w t w'.
Proof.
  intros [e w1 Hget|item w1 w2 Hget Hstatus Hun|item e w1 w2 Hget Hstatus Hun
         |item w1 Hget Hstatus]; simpl; eauto 10.
Qed.

Lemma revert_loop_calls ids w :
  ∃ w' t,
    for_of unarchive_item ids w = (Returned (), w', t) ∧
    genuine w t w' ∧
    fetch_attempts t = ids ∧
    unarchive_calls t = List.filter not_active (fetched t) ∧
    archive_calls t = [] ∧ moved t = [] ∧ comments t = [] ∧ closes t = 0.
Proof.
  revert w. induction ids as [|id rest IH]; intros w.
  { by exists w, []. }
  rewrite MoveProofs.for_of_cons.
  destruct (MoveProofs.unarchive_item_returns id w) as (w1 & t1 & -> & Hturn).
  destruct (IH w1) as (w2 & t2 & -> & Hg2 & Hf2 & Hu2 & Ha2 & Hm2 & Hc2 & Hcl2).
  destruct (revert_turn_calls _ _ _ _ _ Hturn) as (Hf1 & Hu1 & Ha1 & Hm1 & Hc1 & Hcl1).
  exists w2, (t1 ++ t2). split; [done|].
  split; [eapply genuine_app; [by eapply revert_turn_genuine|done]|].
  unfold fetch_attempts, unarchive_calls, fetched, archive_calls, moved, comments, closes in *.
  rewrite !omap_app, !List.filter_app, length_app.
  rewrite Hf1, Hf2, Hu1, Hu2, Ha1, Ha2, Hm1, Hm2, Hc1, Hc2, Hcl1, Hcl2. done.
Qed.

(** X1: a revert whose log cannot be loaded does nothing: the handler
    prints that it could not open the log and returns; it fetches no item
    and does not call the revert of the import. *)
Theorem revert_without_log_does_nothing argv path w e w1 :
  revertLog argv = Some path →
  loadFromFile path w = (Thrown e, w1) →
  handler argv w =
    (Returned (), w1,
     [NewFileLog None; LoadFromFile path (Thrown e);
      ConsoleLog "Could not open the import log! Aborting."]).
Proof.
  intros Hrevert Hload. unfold handler. rewrite Hrevert.
  unfold mbind, run_bind, try_catch, call, emit, mret, run_ret.
  by rewrite Hload.
Qed.

(** X2: a revert whose log loads runs the pass over the [MOVED] entries of
    the log and then, whatever the pass met, calls the revert of the import
    with the same log and with the credentials of the destination, which
    are those of the source where [argv] has none; the handler ends as that
    call ends. *)
Theorem revert_hands_over_to_import_revert argv path w entries w1 :
  revertLog argv = Some path →
  loadFromFile path w = (Returned entries, w1) →
  let args :=
    {| revert_hubId := Js.or_else (dstHubId argv) (hubId argv);
       revert_clientId := Js.or_else (dstClientId argv) (clientId argv);
       revert_clientSecret := Js.or_else (dstSecret argv) (clientSecret argv);
       revert_dir := "";
       revert_revertLog := path |} in
  ∃ w2 t,
    for_of unarchive_item (getData "MOVED" entries) w1 = (Returned (), w2, t) ∧
    handler argv w =
      ((import_revert args w2).1, (import_revert args w2).2,
       NewFileLog None :: LoadFromFile path (Returned entries) ::
       t ++ [ImportRevert args (import_revert args w2).1]).
Proof.
  intros Hrevert Hload args.
  destruct (revert_loop_calls (getData "MOVED" entries) w1) as (w2 & t & Hloop & _).
  exists w2, t. split; [done|].
  unfold handler. rewrite Hrevert.
  unfold mbind, run_bind, try_catch, call, emit, mret, run_ret.
  rewrite Hload. simpl. rewrite Hloop. fold args.
  by destruct (import_revert args w2) as [r w3].
Qed.

(** X3: the calls of the revert pass are the calls that were made: every
    fetch and every [unarchive()] it has recorded was answered by the
    service, in the world the call before had left, and the pass leaves the
    world that the last of them has left.  It fetches every ID it is given,
    once and in order; it calls [unarchive()] on the items it fetched that
    are not active, and on no other; it never calls [archive()] and writes
    nothing to a log. *)
Theorem revert_pass_only_unarchives ids w :
  let run := for_of unarchive_item ids w in
  let t := trace run in
  genuine w t (world run) ∧
  fetch_attempts t = ids ∧
  unarchive_calls t = List.filter not_active (fetched t) ∧
  archive_calls t = [] ∧ moved t = [] ∧ comments t = [] ∧ closes t = 0.
Proof.
  destruct (revert_loop_calls ids w) as (w' & t & Hloop & Hcalls).
  cbv zeta. by rewrite Hloop.
Qed.

(** What the calls of one turn of the archive loop that returns show. *)
Lemma archive_item_calls id w :
  match outcome (archive_item id w) with
  | Returned _ =>
      fetch_attempts (trace (archive_item id w)) = [id] ∧
      length (fetched (trace (archive_item id w))) = 1 ∧
      closes (trace (archive_item id w)) = 0
  | Thrown e =>
      trace (archive_item id w) = [ContentItemsGet id (Thrown e)]
  end.
Proof.
  destruct (MoveProofs.archive_item_cases id w)
    as [(e & w1 & Hget)|[(item & w1 & w2 & Hget & Harchive)
                        |(item & e & w1 & w2 & Hget & Harchive)]].
  - by rewrite (MoveProofs.archive_item_fetch_failed _ _ _ _ Hget).
  - by rewrite (MoveProofs.archive_item_archived _ _ _ _ _ Hget Harchive).
  - by rewrite (MoveProofs.archive_item_archive_failed _ _ _ _ _ _ Hget Harchive).
Qed.

Lemma archive_loop_calls exported w :
  match outcome (for_of archive_item exported w) with
  | Returned _ =>
      fetch_attempts (trace (for_of archive_item exported w)) = exported ∧
      length (fetched (trace (for_of archive_item exported w))) = length exported ∧
      closes (trace (for_of archive_item exported w)) = 0
  | Thrown e =>
      ∃ before id after t,
        exported = before ++ id :: after ∧
        trace (for_of archive_item exported w) = t ++ [ContentItemsGet id (Thrown e)] ∧
        fetch_attempts t = before ∧
        length (fetched t) = length before ∧
        closes t = 0
  end.
Proof.
  revert w. induction exported as [|id rest IH]; intros w; [done|].
  pose proof (archive_item_calls id w) as Hitem.
  rewrite MoveProofs.for_of_trace. rewrite MoveProofs.for_of_cons.
  destruct (archive_item id w) as [[[[]|e] w1] t1]; simpl in Hitem |- *.
  - destruct Hitem as (Hf1 & Hn1 & Hc1). specialize (IH w1).
    destruct (for_of archive_item rest w1) as [[[[]|e] w2] t2]; simpl in IH |- *.
    + destruct IH as (Hf2 & Hn2 & Hc2).
      unfold fetch_attempts, fetched, closes in *.
      rewrite !omap_app, !List.filter_app, !length_app, Hf1, Hf2, Hn1, Hn2, Hc1, Hc2. done.
    + destruct IH as (before & i & after & t & -> & -> & Hf2 & Hn2 & Hc2).
      exists (id :: before), i, after, (t1 ++ t). split; [done|].
      split; [by rewrite app_assoc|].
      unfold fetch_attempts, fetched, closes in *.
      rewrite !omap_app, !List.filter_app, !length_app, Hf1, Hf2, Hn1, Hn2, Hc1, Hc2. done.
  - exists [], id, rest, []. by rewrite Hitem.
Qed.


(** X5: a move whose copy succeeds and whose archive loop returns ends
    with the log closed: [close()] is called once, last, after every
    [archive()]. *)
Theorem move_completes_with_log_closed argv w exported w1 w2 t :
  revertLog argv = None →
  copy_handler argv w = (Returned (true, exported), w1) →
  for_of archive_item exported w1 = (Returned (), w2, t) →
  handler argv w =
    (Returned (), w2,
     NewFileLog (Some (logFile argv)) :: CopyHandler argv (Returned (true, exported)) ::
     t ++ [Close]) ∧
  closes (trace (handler argv w)) = 1.
Proof.
  intros Hforward Hcopy Hloop.
  assert (handler argv w =
    (Returned (), w2,
     NewFileLog (Some (logFile argv)) :: CopyHandler argv (Returned (true, exported)) ::
     t ++ [Close])) as Hrun.
  { unfold handler. rewrite Hforward.
    unfold mbind, run_bind, emit, call. rewrite Hcopy. simpl. by rewrite Hloop. }
  split; [done|]. rewrite Hrun.
  pose proof (archive_loop_calls exported w1) as Hcalls. rewrite Hloop in Hcalls.
  destruct Hcalls as (_ & _ & Hclosed). simpl in Hclosed |- *.
  unfold closes in *. simpl. rewrite List.filter_app, length_app, Hclosed. done.
Qed.

End Proofs.

Import MoveWorld.

Lemma revert_without_log_does_nothing_witness :
  revertLog (argv (Some "lost.log")) = Some "lost.log" ∧
  loadFromFile "lost.log" reverted =
    (Thrown "Error: ENOENT: no such file or directory", reverted) ∧
  handler (argv (Some "lost.log")) reverted =
    (Returned (), reverted,
     [NewFileLog None;
      LoadFromFile "lost.log" (Thrown "Error: ENOENT: no such file or directory");
      ConsoleLog "Could not open the import log! Aborting."]).
Proof.
  split; [reflexivity|]. split; [reflexivity|].
  apply (revert_without_log_does_nothing (argv (Some "lost.log")) "lost.log" reverted
           "Error: ENOENT: no such file or directory" reverted); reflexivity.
Defined.

Lemma revert_hands_over_to_import_revert_witness :
  let entries := [Comment "moved"; Action "MOVED" "item1"; Action "MOVED" "item2";
                  Action "MOVED" "locked"; Action "ARCHIVE" "other";
                  Action "MOVED" "item4"] in
  revertLog (argv (Some "move.log")) = Some "move.log" ∧
  loadFromFile "move.log" reverted = (Returned entries, reverted) ∧
  ∃ w2 t,
    for_of unarchive_item (getData "MOVED" entries) reverted = (Returned (), w2, t) ∧
    handler (argv (Some "move.log")) reverted =
      (Returned (), w2,
       NewFileLog None :: LoadFromFile "move.log" (Returned entries) ::
       t ++ [ImportRevert
               {| revert_hubId := "hub"; revert_clientId := "client";
                  revert_clientSecret := "secret"; revert_dir := "";
                  revert_revertLog := "move.log" |} (Returned ())]).
Proof.
  intros entries. split; [reflexivity|]. split; [reflexivity|].
  exact (revert_hands_over_to_import_revert (argv (Some "move.log")) "move.log"
           reverted entries reverted eq_refl eq_refl).
Defined.

Lemma move_completes_with_log_closed_witness :
  let w := hub [("a", ACTIVE); ("locked", ACTIVE)] (Returned (true, ["a"; "locked"])) in
  let a := {| item_id := Some "a"; item_status := Some ACTIVE |} in
  let l := {| item_id := Some "locked"; item_status := Some ACTIVE |} in
  let t := [ContentItemsGet "a" (Returned a); Archive a (Returned ());
            AddAction "MOVED" (Some "a");
            ContentItemsGet "locked" (Returned l);
            Archive l (Thrown "Error: Request failed with status code 403");
            AddComment "ARCHIVE FAILED: locked";
            AddComment "Error: Request failed with status code 403"] in
  revertLog (argv None) = None ∧
  copy_handler (argv None) w = (Returned (true, ["a"; "locked"]), w) ∧
  for_of archive_item ["a"; "locked"] w = (Returned (), set_status "a" ARCHIVED w, t) ∧
  closes (trace (handler (argv None) w)) = 1.
Proof.
  intros w a l t.
  split; [reflexivity|]. split; [reflexivity|]. split; [reflexivity|].
  apply (move_completes_with_log_closed (argv None) w ["a"; "locked"] w
           (set_status "a" ARCHIVED w) t); reflexivity.
Defined.

End MoveExtras.

(** ** More on the event export command *)

Module ExportExtras.
Import ExportEvent.

(** *** The diff engine *)

Lemma findIndex_all_false {A} (p : A → bool) l :
  (∀ x, x ∈ l → p x = false) → Js.findIndex p l = None.
Proof.
  induction l as [|y l IH]; intros Hall; [done|]. simpl.
  rewrite (Hall y) by left. rewrite IH; [done|]. intros x Hx. apply Hall. by right.
Qed.

Lemma findIndex_after {A} (p : A → bool) l x :
  (∀ y, y ∈ l → p y = false) → p x = true →
  Js.findIndex p (l ++ [x]) = Some (length l).
Proof.
  induction l as [|y l IH]; intros Hall Hx; simpl; [by rewrite Hx|].
  rewrite (Hall y) by left. rewrite IH; [done| |done].
  intros z Hz. apply Hall. by right.
Qed.

Lemma no_match_no_index ev (idx : Index) :
  (∀ f c, (f, c) ∈ idx → event_id c ≠ event_id ev) →
  ∀ c, c ∈ Object_values idx → bool_decide (event_id c = event_id ev) = false.
Proof.
  intros Hnone c ([f c'] & -> & Hentry)%list_elem_of_fmap.
  apply bool_decide_eq_false. by eapply Hnone.
Qed.

Lemma record_event ev outputDir (idx : Index) :
  event (getExportRecordForEvent ev outputDir idx).1 = ev.
Proof.
  unfold getExportRecordForEvent.
  by destruct (Js.findIndex _ (Object_values idx)).
Qed.

(** A record is UPDATED when an entry of the index has the ID of the
    entity, and CREATED when none has. *)
Lemma record_status ev outputDir (idx : Index) :
  (status (getExportRecordForEvent ev outputDir idx).1 = UPDATED ∧
   getExportRecordForEvent ev outputDir idx =
     ((getExportRecordForEvent ev outputDir idx).1, idx) ∧
   ∃ f c, (f, c) ∈ idx ∧ event_id c = event_id ev) ∨
  (status (getExportRecordForEvent ev outputDir idx).1 = CREATED ∧
   getExportRecordForEvent ev outputDir idx =
     ((getExportRecordForEvent ev outputDir idx).1,
      idx ++ [index_entry (getExportRecordForEvent ev outputDir idx).1]) ∧
   ∀ f c, (f, c) ∈ idx → event_id c ≠ event_id ev).
Proof.
  destruct (Js.findIndex (λ c, bool_decide (event_id c = event_id ev))
              (Object_values idx)) as [i|] eqn:Hfind.
  - left.
    apply (ExportProofs.getExportRecordForEvent_updated _ outputDir) in Hfind
      as (f & c & Hentry & Hid & ->).
    split; [done|]. split; [done|]. exists f, c.
    split; [by eapply list_elem_of_lookup_2|done].
  - right.
    pose proof Hfind as Hnone.
    apply (ExportProofs.getExportRecordForEvent_created _ outputDir) in Hfind
      as (f & _ & _ & ->).
    split; [done|]. split; [done|]. intros f' c Hentry Hid.
    assert (c ∈ Object_values idx) as Hc.
    { apply list_elem_of_fmap. by exists (f', c). }
    apply (ExportProofs.findIndex_None _ _ _ Hnone) in Hc.
    by apply bool_decide_eq_false in Hc.
Qed.

(** X6: a record that is CREATED leaves the index such that the same
    entity, or any entity with its ID, is UPDATED next, with the filename it
    was given: the filename of an entity is stable once allocated. *)
Theorem created_then_updated ev outputDir (idx : Index) :
  (∀ f c, (f, c) ∈ idx → event_id c ≠ event_id ev) →
  let first := getExportRecordForEvent ev outputDir idx in
  status first.1 = CREATED ∧
  ∀ ev', event_id ev' = event_id ev →
         getExportRecordForEvent ev' outputDir first.2 =
           ({| filename := filename first.1; status := UPDATED; event := ev' |}, first.2).
Proof.
  intros Hnone first. subst first.
  destruct (record_status ev outputDir idx)
    as [(_ & _ & f & c & Hentry & Hid)|(Hcreated & Hrun & _)].
  { by destruct (Hnone f c). }
  split; [done|]. intros ev' Hsame.
  rewrite Hrun. simpl.
  set (r := (getExportRecordForEvent ev outputDir idx).1).
  assert (event r = ev) as Hev by apply record_event.
  unfold getExportRecordForEvent, Object_values, Object_keys.
  rewrite !fmap_app. simpl. rewrite Hev.
  rewrite findIndex_after.
  - rewrite length_fmap.
    rewrite (list_lookup_total_correct _ _ (filename r)); [done|].
    rewrite lookup_app_r by (by rewrite length_fmap).
    by rewrite length_fmap, Nat.sub_diag.
  - intros c Hc. rewrite Hsame. by eapply no_match_no_index.
  - by apply bool_decide_eq_true.
Qed.

Lemma created_then_updated_witness :
  let a := ExportWorld.an_event (Some "a") "x" in
  let idx := [("out/x.json", ExportWorld.an_event (Some "z") "x")] in
  (∀ f c, (f, c) ∈ idx → event_id c ≠ event_id a) ∧
  getExportRecordForEvent a "out" idx =
    ({| filename := "out/x-1.json"; status := CREATED; event := a |},
     idx ++ [("out/x-1.json", a)]) ∧
  getExportRecordForEvent (ExportWorld.an_event (Some "a") "renamed") "out"
    (idx ++ [("out/x-1.json", a)]) =
    ({| filename := "out/x-1.json"; status := UPDATED;
        event := ExportWorld.an_event (Some "a") "renamed" |},
     idx ++ [("out/x-1.json", a)]).
Proof.
  intros a idx.
  assert (∀ f c, (f, c) ∈ idx → event_id c ≠ event_id a) as Hnone.
  { intros f c Hentry%list_elem_of_singleton. by injection Hentry as -> ->. }
  split; [exact Hnone|]. split; [reflexivity|].
  exact (proj2 (created_then_updated a "out" idx Hnone)
           (ExportWorld.an_event (Some "a") "renamed") eq_refl).
Defined.

(** What [getEventExports] returns, by induction on the batch: the events
    of the records, the map of the files to overwrite, and the index. *)
Lemma getEventExports_result outputDir events :
  ∀ (idx : Index),
    let result := getEventExports outputDir idx events in
    event <$> result.1.1 = List.filter has_id events ∧
    result.1.2 = omap overwrite_line result.1.1 ∧
    result.2 = idx ++ (index_entry <$> created result.1.1).
Proof.
  induction events as [|ev rest IH]; intros idx; simpl.
  { by rewrite app_nil_r. }
  unfold has_id at 1. simpl.
  destruct (event_id ev) as [i|] eqn:Hid; simpl; [|apply IH].
  case_bool_decide as Hempty; simpl; [apply IH|].
  pose proof (record_event ev outputDir idx) as Hevent.
  pose proof (record_status ev outputDir idx) as Hstatus.
  destruct (getExportRecordForEvent ev outputDir idx) as [r index1]. simpl in *.
  specialize (IH index1).
  destruct (getEventExports outputDir index1 rest) as [[all upd] idx2]. simpl in *.
  destruct IH as (IH1 & IH2 & IH3).
  change (list_fmap _ _ event all) with (event <$> all).
  change (list_omap _ _ overwrite_line all) with (omap overwrite_line all).
  rewrite Hevent, IH1. split; [done|].
  unfold overwrite_line at 1. rewrite Hevent, Hid. simpl.
  destruct Hstatus as [(Hupdated & [= <-] & _)|(Hcreated & [= ->] & _)].
  - rewrite Hupdated. rewrite bool_decide_true by done.
    rewrite bool_decide_false by done. simpl. by rewrite IH2.
  - rewrite Hcreated. rewrite bool_decide_false by done.
    rewrite bool_decide_true by done. simpl. by rewrite IH2, IH3, <-app_assoc.
Qed.

(** X7: [getEventExports] gives one record for each entity of the batch
    that has an ID that is not empty, in the order of the batch, and none
    for the others; the map of the files to overwrite has one line for each
    UPDATED record, in order, with the ID of the entity and the filename of
    the record. *)
Theorem records_follow_the_batch outputDir (idx : Index) events :
  event <$> (getEventExports outputDir idx events).1.1 = List.filter has_id events ∧
  (getEventExports outputDir idx events).1.2 =
    omap overwrite_line (getEventExports outputDir idx events).1.1.
Proof.
  destruct (getEventExports_result outputDir events idx) as (? & ? & _). done.
Qed.

(** X8: [getEventExports] leaves the entries the index had where they
    were, with their events: no file is dropped or renamed.  What it adds,
    after them, is one entry for each CREATED record, in order: its
    filename with its event. *)
Theorem index_only_grows outputDir (idx : Index) events :
  (getEventExports outputDir idx events).2 =
    idx ++ (index_entry <$> created (getEventExports outputDir idx events).1.1).
Proof.
  by destruct (getEventExports_result outputDir events idx) as (_ & _ & ?).
Qed.

Lemma record_has_exported_id outputDir (idx : Index) events r :
  r ∈ (getEventExports outputDir idx events).1.1 →
  ∃ i, event_id (event r) = Some i ∧ i ∈ exported_ids events.
Proof.
  intros Hr.
  destruct (getEventExports_result outputDir events idx) as (Hevents & _ & _).
  assert (event r ∈ List.filter has_id events) as Hin.
  { rewrite <-Hevents. apply list_elem_of_fmap. by exists r. }
  apply list_elem_of_In, List.filter_In in Hin as [Hin%list_elem_of_In Hid].
  unfold has_id, Js.truthy in Hid.
  destruct (event_id (event r)) as [i|] eqn:Hi; [|done].
  exists i. split; [done|]. unfold exported_ids.
  apply list_elem_of_omap. exists (event r). split; [done|].
  rewrite Hi. by destruct (bool_decide (i = "")).
Qed.

(** X9: in a batch whose entities have distinct IDs, a record is UPDATED
    exactly when the index held, before the run, an entry with the ID of
    its entity; the records of the other entities are CREATED. *)
Theorem classification_by_id outputDir events :
  ∀ (idx : Index) r,
    NoDup (exported_ids events) →
    r ∈ (getEventExports outputDir idx events).1.1 →
    (status r = UPDATED ↔ ∃ f c, (f, c) ∈ idx ∧ event_id c = event_id (event r)) ∧
    (status r = CREATED ↔ ∀ f c, (f, c) ∈ idx → event_id c ≠ event_id (event r)).
Proof.
  induction events as [|ev rest IH]; intros idx r Hids Hr; simpl in Hr.
  { by apply elem_of_nil in Hr. }
  unfold exported_ids in Hids. simpl in Hids.
  destruct (event_id ev) as [i|] eqn:Hid; [|by apply IH].
  case_bool_decide as Hempty; [by apply IH|].
  apply NoDup_cons in Hids as [Hfresh Hids].
  pose proof (record_event ev outputDir idx) as Hevent.
  pose proof (record_status ev outputDir idx) as Hstatus.
  destruct (getExportRecordForEvent ev outputDir idx) as [r1 index1]. simpl in *.
  pose proof (record_has_exported_id outputDir index1 rest r) as Hhas.
  specialize (IH index1 r Hids).
  destruct (getEventExports outputDir index1 rest) as [[all upd] idx2]. simpl in *.
  apply elem_of_cons in Hr as [->|Hr].
  - rewrite Hevent.
    destruct Hstatus as [(Hupdated & _ & f & c & Hentry & Hc)
                        |(Hcreated & _ & Hnone)]; split; split.
    + intros _. by exists f, c.
    + done.
    + rewrite Hupdated. done.
    + intros Hnone. by destruct (Hnone f c).
    + rewrite Hcreated. done.
    + intros (f & c & Hentry & Hc). by destruct (Hnone f c).
    + done.
    + done.
  - destruct (Hhas Hr) as (j & Hj & Hjrest).
    assert (i ≠ j) as Hij by (by intros ->).
    destruct (IH Hr) as [IHu IHc].
    assert (∀ f c, event_id c = event_id (event r) →
                   (f, c) ∈ index1 ↔ (f, c) ∈ idx) as Hsame.
    { intros f c Hc.
      destruct Hstatus as [(_ & [= <-] & _)|(_ & [= ->] & _)]; [done|].
      rewrite elem_of_app, list_elem_of_singleton. split; [|by left].
      intros [?|[= -> ->]]; [done|].
      rewrite Hevent in Hc. congruence. }
    split.
    + rewrite IHu. split; intros (f & c & Hentry & Hc); exists f, c;
        (split; [by apply (Hsame f c Hc)|done]).
    + rewrite IHc. split; intros Hnone f c Hentry Hc;
        apply (Hnone f c); [by apply (Hsame f c Hc)|done|by apply (Hsame f c Hc)|done].
Qed.

Lemma classification_by_id_witness :
  let a := ExportWorld.an_event (Some "a") "x" in
  let b := ExportWorld.an_event (Some "b") "y" in
  let c := ExportWorld.an_event (Some "c") "x" in
  let idx := [("out/a.json", a); ("out/b.json", b)] in
  let r := {| filename := "out/a.json"; status := UPDATED; event := a |} in
  NoDup (exported_ids [a; c]) ∧
  getEventExports "out" idx [a; c] =
    ([r; {| filename := "out/x.json"; status := CREATED; event := c |}],
     [{| uri := "a"; map_filename := "out/a.json" |}],
     idx ++ [("out/x.json", c)]) ∧
  (status r = UPDATED ↔ ∃ f e, (f, e) ∈ idx ∧ event_id e = event_id (event r)).
Proof.
  intros a b c idx r.
  assert (NoDup (exported_ids [a; c])) as Hids.
  { apply (bool_decide_unpack _). vm_compute. exact I. }
  split; [exact Hids|]. split; [reflexivity|].
  refine (proj1 (classification_by_id "out" [a; c] idx r Hids _)).
  apply list_elem_of_here.
Defined.

(** *** Fetching the editions and the slots *)

Section Handler.
Context {W : Type} `{!Collaborators W}.

Lemma enrichEditions_cons edition rest w :
  enrichEditions (edition :: rest) w =
    match list_slots edition w with
    | (Returned s, w1) =>
        match enrichEditions rest w1 with
        | (Returned rest', w2, t2) =>
            (Returned (set_slots edition s :: rest'), w2,
             ListSlots edition (Returned s) :: t2)
        | (Thrown e, w2, t2) => (Thrown e, w2, ListSlots edition (Returned s) :: t2)
        end
    | (Thrown e, w1) => (Thrown e, w1, [ListSlots edition (Thrown e)])
    end.
Proof.
  simpl. unfold mbind, run_bind, call, mret, run_ret.
  destruct (list_slots edition w) as [[s|e] w1]; [|done].
  destruct (enrichEditions rest w1) as [[[rest'|e] w2] t2]; [|done].
  simpl. by rewrite app_nil_r.
Qed.

Lemma slot_listings_cons edition r t :
  slot_listings (ListSlots edition r :: t) = edition :: slot_listings t.
Proof. done. Qed.

(** X10: [enrichEditions] lists the slots of the editions in order, each
    listing asked in the world that the one before has left.  When every
    listing returns, it gives the editions in the same order, each with
    the slots that its own listing has answered.  When a listing throws,
    it is left by that exception at once: the editions before that one
    were listed in turn, the editions after it are not listed, and the
    world is as the listing that threw has left it. *)
Theorem enrichEditions_lists_in_order eds w :
  let run := enrichEditions eds w in
  match outcome run with
  | Returned result =>
      slot_listings (trace run) = eds ∧
      in_turn slots_turn eds w result (world run) (trace run)
  | Thrown e =>
      ∃ before edition after done w0 t0,
        eds = before ++ edition :: after ∧
        in_turn slots_turn before w done w0 t0 ∧
        list_slots edition w0 = (Thrown e, world run) ∧
        trace run = t0 ++ [ListSlots edition (Thrown e)] ∧
        slot_listings (trace run) = before ++ [edition]
  end.
Proof.
  cbv zeta. revert w. induction eds as [|edition rest IH]; intros w.
  { split; [done|]. constructor. }
  rewrite enrichEditions_cons.
  destruct (list_slots edition w) as [[s|e] w1] eqn:Hlist.
  - specialize (IH w1).
    destruct (enrichEditions rest w1) as [[[rest'|e] w2] t2];
      unfold outcome, world, trace in IH |- *; cbn [fst snd] in IH |- *.
    + destruct IH as (Hlisted & Hturns).
      split; [by rewrite slot_listings_cons, Hlisted|].
      apply (in_turn_cons slots_turn edition rest w (set_slots edition s) w1
               [ListSlots edition (Returned s)] rest' w2 t2); [by constructor|done].
    + destruct IH as (before & ed & after & done & w0 & t0
                      & -> & Hturns & Hthrown & -> & Hlisted).
      exists (edition :: before), ed, after, (set_slots edition s :: done), w0,
        ([ListSlots edition (Returned s)] ++ t0).
      split; [done|].
      split; [eapply in_turn_cons; [by constructor|done]|].
      split; [done|]. split; [done|].
      by rewrite slot_listings_cons, Hlisted.
  - exists [], edition, rest, [], w, [].
    split; [done|]. split; [constructor|]. done.
Qed.

(** The calls of [enrichEditions] are listings of slots. *)
Lemma enrichEditions_calls eds w :
  Forall (λ c, enrichment_call c = true) (trace (enrichEditions eds w)) ∧
  edition_listings (trace (enrichEditions eds w)) = [].
Proof.
  revert w. induction eds as [|edition rest IH]; intros w; [by split|].
  rewrite enrichEditions_cons.
  destruct (list_slots edition w) as [[s|e] w1]; [|by split; [repeat constructor|]].
  specialize (IH w1).
  destruct (enrichEditions rest w1) as [[[rest'|e] w2] t2];
    unfold trace in IH |- *; cbn [fst snd] in IH |- *;
    destruct IH as [Hcalls Hnone]; (split; [by constructor|done]).
Qed.

Lemma edition_listings_cons c t :
  edition_listings (c :: t) =
    match c with ListEditions ev _ => [ev] | _ => [] end ++ edition_listings t.
Proof. by destruct c. Qed.

Lemma edition_listings_app t1 t2 :
  edition_listings (t1 ++ t2) = edition_listings t1 ++ edition_listings t2.
Proof. apply omap_app. Qed.

(** One turn of the loop of [enrichEvents] returns: the event with its
    editions, when they and their slots could be listed, and the event as
    it was otherwise; then the loop goes on. *)
Lemma enrichEvents_loop_cons log ev rest w :
  ∃ ev' w1 t1,
    editions_turn log ev w ev' w1 t1 ∧
    Forall (λ c, enrichment_call c = true) t1 ∧
    edition_listings t1 = [ev] ∧
    (ev' = ev ∨
     ∃ eds withSlots,
       ListEditions ev (Returned eds) ∈ t1 ∧ ev' = set_editions ev withSlots) ∧
    enrichEvents_loop log (ev :: rest) w =
      match enrichEvents_loop log rest w1 with
      | (Returned r, w2, t2) => (Returned (ev' :: r), w2, t1 ++ t2)
      | (Thrown e, w2, t2) => (Thrown e, w2, t1 ++ t2)
      end.
Proof.
  simpl enrichEvents_loop.
  unfold mbind, run_bind, try_catch, call, emit, mret, run_ret.
  destruct log; simpl.
  - destruct (list_editions ev w) as [[eds|e] w1] eqn:Hlist.
    + pose proof (enrichEditions_calls eds w1) as [Hcalls Hnone].
      destruct (enrichEditions eds w1) as [[[withSlots|e] w2] t2] eqn:Henrich;
        unfold trace in Hcalls, Hnone; cbn [fst snd] in Hcalls, Hnone.
      * exists (set_editions ev withSlots), w2,
          (AppendLine ("Fetching " +:+ Js.template (name ev) +:+ " with editions.") :: ListEditions ev (Returned eds) :: t2).
        split; [exact (editions_listed true ev w eds w1 withSlots w2 t2 Hlist Henrich)|].
        split; [by repeat constructor|].
        split; [by rewrite !edition_listings_cons, Hnone|].
        split; [right; exists eds, withSlots; split; [|done];
                rewrite !elem_of_cons; auto|].
        destruct (enrichEvents_loop true rest w2) as [[[r|e] w3] t3];
          simpl; by rewrite ?app_nil_r.
      * exists ev, w2,
          (AppendLine ("Fetching " +:+ Js.template (name ev) +:+ " with editions.") :: ListEditions ev (Returned eds) :: t2 ++
           [LogError ("Failed to fetch editions for " +:+ Js.template (name ev) +:+ ", skipping.") e]).
        split; [exact (slots_not_listed true ev w eds w1 e w2 t2 Hlist Henrich)|].
        split; [repeat constructor; apply Forall_app; split;
                [done|by repeat constructor]|].
        split; [by rewrite !edition_listings_cons, edition_listings_app, Hnone|].
        split; [by left|].
        destruct (enrichEvents_loop true rest w2) as [[[r|e'] w3] t3];
          simpl; by rewrite <-?app_assoc, ?app_nil_r.
    + exists ev, w1,
        [AppendLine ("Fetching " +:+ Js.template (name ev) +:+ " with editions.");
         ListEditions ev (Thrown e);
         LogError ("Failed to fetch editions for " +:+ Js.template (name ev) +:+ ", skipping.") e].
      split; [exact (editions_not_listed true ev w e w1 Hlist)|].
      split; [by repeat constructor|]. split; [done|]. split; [by left|].
      destruct (enrichEvents_loop true rest w1) as [[[r|e'] w3] t3];
        simpl; by rewrite ?app_nil_r.
  - destruct (list_editions ev w) as [[eds|e] w1] eqn:Hlist.
    + pose proof (enrichEditions_calls eds w1) as [Hcalls Hnone].
      destruct (enrichEditions eds w1) as [[[withSlots|e] w2] t2] eqn:Henrich;
        unfold trace in Hcalls, Hnone; cbn [fst snd] in Hcalls, Hnone.
      * exists (set_editions ev withSlots), w2, (ListEditions ev (Returned eds) :: t2).
        split; [exact (editions_listed false ev w eds w1 withSlots w2 t2 Hlist Henrich)|].
        split; [by repeat constructor|].
        split; [by rewrite !edition_listings_cons, Hnone|].
        split; [right; exists eds, withSlots; split; [|done];
                rewrite !elem_of_cons; auto|].
        destruct (enrichEvents_loop false rest w2) as [[[r|e] w3] t3];
          simpl; by rewrite ?app_nil_r.
      * exists ev, w2, (ListEditions ev (Returned eds) :: t2).
        split.
        { pose proof (slots_not_listed false ev w eds w1 e w2 t2 Hlist Henrich) as Hturn.
          unfold fetching, skipping in Hturn. by rewrite app_nil_r in Hturn. }
        split; [by repeat constructor|].
        split; [by rewrite !edition_listings_cons, Hnone|].
        split; [by left|].
        destruct (enrichEvents_loop false rest w2) as [[[r|e'] w3] t3];
          simpl; by rewrite ?app_nil_r.
    + exists ev, w1, [ListEditions ev (Thrown e)].
      split; [exact (editions_not_listed false ev w e w1 Hlist)|].
      split; [by repeat constructor|]. split; [done|]. split; [by left|].
      destruct (enrichEvents_loop false rest w1) as [[[r|e'] w3] t3];
        simpl; by rewrite ?app_nil_r.
Qed.

Lemma enrichEvents_loop_result log events w :
  ∃ r w' t,
    enrichEvents_loop log events w = (Returned r, w', t) ∧
    Forall (λ c, enrichment_call c = true) t ∧
    edition_listings t = events ∧
    Forall2 (λ ev ev',
               ev' = ev ∨
               ∃ eds withSlots,
                 ListEditions ev (Returned eds) ∈ t ∧ ev' = set_editions ev withSlots)
      events r ∧
    in_turn (editions_turn log) events w r w' t.
Proof.
  revert w. induction events as [|ev rest IH]; intros w.
  { exists [], w, []. by repeat split; constructor. }
  destruct (enrichEvents_loop_cons log ev rest w)
    as (ev' & w1 & t1 & Hturn & Hcalls1 & Hlisted1 & Hev & ->).
  destruct (IH w1) as (r & w2 & t2 & -> & Hcalls2 & Hlisted2 & Hrest & Hturns).
  exists (ev' :: r), w2, (t1 ++ t2). split; [done|].
  split; [by apply Forall_app|].
  split; [by rewrite edition_listings_app, Hlisted1, Hlisted2|].
  split; [|by econstructor].
  constructor.
  - destruct Hev as [->|(eds & withSlots & Hin & ->)]; [by left|].
    right. exists eds, withSlots. split; [|done]. apply elem_of_app. by left.
  - eapply Forall2_impl; [exact Hrest|].
    intros x y [->|(eds & withSlots & Hin & ->)]; [by left|].
    right. exists eds, withSlots. split; [|done]. apply elem_of_app. by right.
Qed.

Lemma List_filter_sublist {A} (f : A → bool) l : List.filter f l `sublist_of` l.
Proof.
  induction l as [|x l IH]; simpl; [constructor|].
  destruct (f x); by constructor.
Qed.

(** X11: [enrichEvents] never throws: an exception of the listing of the
    editions of an event, or of their slots, is caught and the loop goes on.
    The events are taken in order, each in the world that the turn before
    has left, and the editions of every event are asked for once.  An event
    whose editions are listed and whose slots [enrichEditions] gives gets
    those editions, as [enrichEditions] has given them; an event for which
    either throws stays as it was.  What is given is the events so turned
    that have editions, in the order of the batch. *)
Theorem enrichEvents_never_throws events log w :
  let run := enrichEvents events log w in
  ∃ turned result,
    outcome run = Returned result ∧
    in_turn (editions_turn log) events w turned (world run) (trace run) ∧
    result = List.filter (λ ev, bool_decide (is_Some (editions ev))) turned ∧
    edition_listings (trace run) = events ∧
    Forall (λ ev, is_Some (editions ev)) result ∧
    described <$> result `sublist_of` described <$> events.
Proof.
  destruct (enrichEvents_loop_result log events w)
    as (r & w' & t & Hloop & _ & Hlisted & Hpairs & Hturns).
  assert (enrichEvents events log w =
            (Returned (List.filter (λ ev, bool_decide (is_Some (editions ev))) r), w', t))
    as Hrun.
  { unfold enrichEvents, mbind, run_bind, mret, run_ret.
    by rewrite Hloop, app_nil_r. }
  cbv zeta. rewrite Hrun.
  exists r, (List.filter (λ ev, bool_decide (is_Some (editions ev))) r).
  split; [done|]. split; [done|]. split; [done|]. split; [done|]. split.
  { apply Forall_forall. intros ev Hev%list_elem_of_In.
    apply List.filter_In in Hev as [_ Hev]. by apply bool_decide_eq_true in Hev. }
  assert (described <$> r = described <$> events) as <-.
  { clear Hloop Hlisted Hturns Hrun.
    induction Hpairs as [|ev ev' events r Hev _ IH]; [done|].
    rewrite !fmap_cons, IH.
    destruct Hev as [->|(eds & withSlots & _ & ->)]; done. }
  apply fmap_sublist, List_filter_sublist.
Qed.

(** *** processEvents *)

Lemma enrichEvents_returns events log w :
  ∃ result w1 t1,
    enrichEvents events log w = (Returned result, w1, t1) ∧
    Forall (λ c, enrichment_call c = true) t1.
Proof.
  destruct (enrichEvents_loop_result log events w) as (r & w1 & t1 & Hloop & Hcalls & _).
  eexists _, w1, t1. split; [|done].
  unfold enrichEvents, mbind, run_bind, mret, run_ret.
  by rewrite Hloop, app_nil_r.
Qed.

Lemma write_export_calls r w :
  Forall (λ c, output_call c = true) (trace (write_export r w)).
Proof.
  unfold write_export, mbind, run_bind, call, emit, mret, run_ret.
  case_bool_decide.
  - destruct (writeJsonToFile _ _ w) as [[[]|e] w1]; by repeat constructor.
  - by repeat constructor.
Qed.

Lemma write_loop_calls all w :
  Forall (λ c, output_call c = true) (trace (for_of write_export all w)).
Proof.
  revert w. induction all as [|r rest IH]; intros w; [constructor|].
  simpl for_of. rewrite ExportProofs.bind_trace. apply Forall_app.
  split; [apply write_export_calls|].
  destruct (outcome _); [apply IH|constructor].
Qed.

(** The calls of lines 184-195: the directory, then the table and the
    files. *)
Lemma write_phase_calls outputDir all w :
  let phase : Run W Call unit :=
    call (ensureDirectoryExists outputDir) (EnsureDirectoryExists outputDir);;
    emit (TableWrite [bold "File"; bold "Schema ID"; bold "Result"]);;
    for_of write_export all;;
    emit (StdoutWrite Js.newline) in
  (∃ e, trace (phase w) = [EnsureDirectoryExists outputDir (Thrown e)]) ∨
  (∃ rest,
     trace (phase w) = EnsureDirectoryExists outputDir (Returned ()) :: rest ∧
     Forall (λ c, output_call c = true) rest).
Proof.
  intros phase. subst phase.
  unfold mbind, run_bind, call, emit.
  destruct (ensureDirectoryExists outputDir w) as [[[]|e] w1]; [right|left; by eexists].
  pose proof (write_loop_calls all w1) as Hloop.
  destruct (for_of write_export all w1) as [[[[]|e] w2] t2]; simpl in Hloop |- *;
    eexists; (split; [done|]); constructor; try done.
  apply Forall_app. split; [done|]. by repeat constructor.
Qed.

(** The test of lines 176-179, by cases. *)
Lemma nothing_to_write_cases all upd w :
  (all = [] ∧ nothing_to_write all upd w = (Returned true, w, [])) ∨
  (all ≠ [] ∧ upd = [] ∧ nothing_to_write all upd w = (Returned false, w, [])) ∨
  (all ≠ [] ∧ upd ≠ [] ∧
   nothing_to_write all upd w =
     (match (promptToOverwriteExports upd w).1 with
      | Returned overwrite => Returned (negb overwrite)
      | Thrown e => Thrown e
      end,
      (promptToOverwriteExports upd w).2,
      [PromptToOverwriteExports upd (promptToOverwriteExports upd w).1])).
Proof.
  unfold nothing_to_write. case_bool_decide as Hnone.
  { left. split; [by destruct all|done]. }
  right. assert (all ≠ []) by (by intros ->).
  case_bool_decide as Hupdated.
  - right. split; [done|]. split; [intros ->; simpl in Hupdated; lia|].
    unfold mbind, run_bind, call, mret, run_ret.
    by destruct (promptToOverwriteExports upd w) as [[overwrite|e] w1].
  - left. split; [done|]. split; [|done]. destruct upd; [done|]. simpl in Hupdated. lia.
Qed.

(** The calls of [processEvents], in order: those that fetch the editions,
    then one of the ends of [process_tail]. *)
Lemma processEvents_shape outputDir (idx : Index) events w :
  ∃ t1 tail,
    trace (processEvents outputDir idx events w) = t1 ++ tail ∧
    Forall (λ c, enrichment_call c = true) t1 ∧
    process_tail outputDir tail.
Proof.
  unfold processEvents. case_bool_decide as Hempty.
  { exists [], [NothingExportedExit
                  (Some ("No events to export from this hub, exiting." +:+ Js.newline)) false].
    split; [done|]. split; constructor. }
  destruct (enrichEvents_returns events true w) as (enriched & w1 & t1 & Henrich & Hcalls).
  exists t1. rewrite ExportProofs.bind_trace, Henrich. simpl.
  destruct (getEventExports outputDir idx enriched) as [[all upd] idx'].
  rewrite ExportProofs.bind_trace.
  destruct (nothing_to_write_cases all upd w1)
    as [[_ ->]|[(_ & _ & ->)|(_ & _ & ->)]]; simpl.
  - exists [NothingExportedExit None false]. split; [done|]. split; [done|]. constructor.
  - destruct (write_phase_calls outputDir all w1) as [[e Hphase]|(rest & Hphase & Hrest)];
      cbv zeta in Hphase; rewrite Hphase.
    + exists ([] ++ [EnsureDirectoryExists outputDir (Thrown e)]).
      split; [done|]. split; [done|]. apply tail_no_directory. constructor.
    + exists ([] ++ EnsureDirectoryExists outputDir (Returned ()) :: rest).
      split; [done|]. split; [done|]. apply tail_written; [constructor|done].
  - destruct (promptToOverwriteExports upd w1) as [[[]|e] w2]; simpl.
    + destruct (write_phase_calls outputDir all w2) as [[e Hphase]|(rest & Hphase & Hrest)];
        cbv zeta in Hphase; rewrite Hphase.
      * exists ([PromptToOverwriteExports upd (Returned true)] ++
                [EnsureDirectoryExists outputDir (Thrown e)]).
        split; [done|]. split; [done|]. apply tail_no_directory. constructor.
      * exists ([PromptToOverwriteExports upd (Returned true)] ++
                EnsureDirectoryExists outputDir (Returned ()) :: rest).
        split; [done|]. split; [done|]. apply tail_written; [constructor|done].
    + exists [PromptToOverwriteExports upd (Returned false); NothingExportedExit None false].
      split; [done|]. split; [done|]. constructor.
    + exists [PromptToOverwriteExports upd (Thrown e)].
      split; [done|]. split; [done|]. constructor.
Qed.

Lemma enrichment_calls_are_quiet t :
  Forall (λ c, enrichment_call c = true) t →
  Forall (λ c, process_call c = true) t ∧
  Forall (λ c, changes_disk c = false) t ∧
  Forall (λ c, is_prompt c = false) t ∧
  written_files t = [].
Proof.
  induction 1 as [|c t Hc _ (IH1 & IH2 & IH3 & IH4)]; [by repeat split|].
  destruct c; try done; (split; [by constructor|]); (split; [by constructor|]);
    (split; [by constructor|]); exact IH4.
Qed.

Lemma output_calls_are_process_calls t :
  Forall (λ c, output_call c = true) t →
  Forall (λ c, process_call c = true) t ∧ Forall (λ c, is_prompt c = false) t.
Proof.
  induction 1 as [|c t Hc _ [IH1 IH2]]; [by split|].
  destruct c; try done; split; by constructor.
Qed.

Lemma processEvents_calls outputDir (idx : Index) events w :
  Forall (λ c, process_call c = true) (trace (processEvents outputDir idx events w)).
Proof.
  destruct (processEvents_shape outputDir idx events w) as (t1 & tail & -> & Hcalls & Htail).
  apply Forall_app. split; [by apply enrichment_calls_are_quiet|].
  destruct Htail as [msg|m e|m|pre e Hpre|pre rest Hpre Hrest];
    try (by repeat constructor).
  - destruct Hpre; by repeat constructor.
  - apply Forall_app. split; [destruct Hpre; by repeat constructor|].
    constructor; [done|]. by apply output_calls_are_process_calls.
Qed.

(** X12: [processEvents] never writes the ID of an entity: whatever the
    batch, the index and the answers it gets, the event of every call of
    [writeJsonToFile] has no [id]. *)
Theorem remote_id_is_never_written outputDir (idx : Index) events w :
  ∀ f ev r,
    WriteJsonToFile f ev r ∈ trace (processEvents outputDir idx events w) →
    event_id ev = None.
Proof.
  intros f ev r Hin.
  pose proof (processEvents_calls outputDir idx events w) as Hcalls.
  rewrite Forall_forall in Hcalls. specialize (Hcalls _ Hin).
  by apply bool_decide_eq_true in Hcalls.
Qed.

(** X13: [processEvents] writes a file only after [ensureDirectoryExists]
    has returned for the output directory, and nothing it calls before that
    creates a directory or writes a file: when the directory cannot be
    created, no file is written. *)
Theorem directory_before_files outputDir (idx : Index) events w :
  let t := trace (processEvents outputDir idx events w) in
  written_files t = [] ∨
  ∃ before after,
    t = before ++ EnsureDirectoryExists outputDir (Returned ()) :: after ∧
    Forall (λ c, changes_disk c = false) before.
Proof.
  destruct (processEvents_shape outputDir idx events w) as (t1 & tail & -> & Hcalls & Htail).
  apply enrichment_calls_are_quiet in Hcalls as (_ & Hcalm & _ & Hnone).
  cbv zeta. unfold written_files in *. rewrite omap_app, Hnone.
  destruct Htail as [msg|m e|m|pre e Hpre|pre rest Hpre Hrest];
    try (by left).
  - left. by destruct Hpre.
  - right. exists (t1 ++ pre), rest. split; [by rewrite <-app_assoc|].
    apply Forall_app. split; [done|]. destruct Hpre; by repeat constructor.
Qed.

Lemma no_updated_no_line all :
  (∀ r : ExportRecord, r ∈ all → status r ≠ UPDATED) → omap overwrite_line all = [].
Proof.
  induction all as [|r rest IH]; intros Hnone; [done|].
  rewrite <-(IH (λ r' Hr', Hnone r' (list_elem_of_further _ _ _ Hr'))).
  unfold overwrite_line at 1. simpl.
  by rewrite bool_decide_false by (apply Hnone; left).
Qed.

(** X14: the user is asked only for an overwrite: when no record of the
    run is UPDATED, [processEvents] never calls [promptToOverwriteExports]. *)
Theorem no_question_without_overwrite outputDir (idx : Index) events w enriched w1 t1 :
  enrichEvents events true w = (Returned enriched, w1, t1) →
  (∀ r, r ∈ (getEventExports outputDir idx enriched).1.1 → status r ≠ UPDATED) →
  Forall (λ c, is_prompt c = false) (trace (processEvents outputDir idx events w)).
Proof.
  intros Henrich Hnone.
  destruct (enrichEvents_returns events true w) as (? & ? & ? & Heq & Hcalls).
  rewrite Henrich in Heq. injection Heq as <- <- <-.
  apply enrichment_calls_are_quiet in Hcalls as (_ & _ & Hquiet & _).
  pose proof (getEventExports_result outputDir enriched idx) as (_ & Hmap & _).
  cbv zeta in Hmap. rewrite (no_updated_no_line _ Hnone) in Hmap.
  unfold processEvents. case_bool_decide as Hempty; [by repeat constructor|].
  rewrite ExportProofs.bind_trace, Henrich. simpl.
  destruct (getEventExports outputDir idx enriched) as [[all upd] idx']. simpl in Hmap.
  subst upd. apply Forall_app. split; [done|].
  rewrite ExportProofs.bind_trace.
  destruct (nothing_to_write_cases all [] w1)
    as [[_ ->]|[(_ & _ & ->)|(_ & ? & _)]]; [by repeat constructor| |done].
  simpl.
  destruct (write_phase_calls outputDir all w1) as [[e Hphase]|(rest & Hphase & Hrest)];
    cbv zeta in Hphase; rewrite Hphase; [by repeat constructor|].
  constructor; [done|]. by apply output_calls_are_process_calls.
Qed.

(** X15: when there is nothing to write, [processEvents] only gives
    notice: for a batch with no event, and for a batch of which no event
    gets a record (its editions could not be listed, or it has no ID), it
    returns after the notice, without asking and without a directory or a
    file. *)
Theorem nothing_to_export_without_records outputDir (idx : Index) events w enriched w1 t1 :
  enrichEvents events true w = (Returned enriched, w1, t1) →
  (getEventExports outputDir idx enriched).1.1 = [] →
  processEvents outputDir idx events w =
    (Returned (), w1,
     t1 ++ [NothingExportedExit
              (if bool_decide (events = [])
               then Some ("No events to export from this hub, exiting." +:+ Js.newline)
               else None) false]).
Proof.
  intros Henrich Hnone. unfold processEvents.
  destruct events as [|ev rest].
  { rewrite ExportProofs.enrichEvents_nil in Henrich. by injection Henrich as <- <- <-. }
  rewrite !bool_decide_false by done.
  unfold mbind at 1, run_bind at 1. rewrite Henrich.
  destruct (getEventExports outputDir idx enriched) as [[all upd] idx']. simpl in Hnone.
  subst all. unfold nothing_to_write. rewrite bool_decide_true by done.
  reflexivity.
Qed.

(** *** The handler *)

Lemma relative_calls x w :
  trace (relative x w) = [] ∨ ∃ s r, trace (relative x w) = [RelativeDate s r].
Proof.
  destruct x as [s|]; [right|by left].
  unfold relative, mbind, run_bind, call, mret, run_ret.
  destruct (relativeDate s w) as [[d|e] w1]; by eexists _, _.
Qed.

Lemma process_calls_counts t :
  Forall (λ c, process_call c = true) t →
  log_closes t = 0 ∧ listings t = 0 ∧ single_gets t = 0.
Proof.
  unfold log_closes, listings, single_gets.
  induction 1 as [|c t Hc _ (IH1 & IH2 & IH3)]; [done|].
  destruct c; try done; simpl; by rewrite ?IH1, ?IH2, ?IH3.
Qed.

(** X16: when the hub cannot be fetched, the export ends there: the handler
    logs the error, closes the log and returns.  It lists or gets no event
    and calls nothing that creates a directory or writes a file. *)
Theorem hub_failure_ends_the_export argv w from w1 t1 to w2 t2 prev w3 e w4 :
  relative (fromDate argv) w = (Returned from, w1, t1) →
  relative (toDate argv) w1 = (Returned to, w2, t2) →
  loadJsonFromDirectory (dir argv) w2 = (Returned prev, w3) →
  hubs_get (hubId argv) w3 = (Thrown e, w4) →
  handler argv w =
    (Returned (), w4,
     NewFileLog (logFile argv) :: t1 ++ t2 ++
     [LoadJsonFromDirectory (dir argv) (Returned prev);
      HubsGet (hubId argv) (Thrown e);
      LogError ("Couldn't get hub with id " +:+ hubId argv +:+ ", aborting.") e;
      Close]).
Proof.
  intros Hfrom Hto Hload Hhub. unfold handler.
  unfold mbind, run_bind, try_catch, call, emit, mret, run_ret.
  by rewrite Hfrom, Hto, Hload, Hhub.
Qed.

(** X17: with an [id], when the event cannot be fetched, the export ends
    there: the handler logs the error, closes the log and returns, without
    the line that says it is done; nothing is exported. *)
Theorem missing_event_ends_the_export argv i w from w1 t1 to w2 t2 prev w3 hub w4 e w5 :
  id argv = Some i → i ≠ "" →
  relative (fromDate argv) w = (Returned from, w1, t1) →
  relative (toDate argv) w1 = (Returned to, w2, t2) →
  loadJsonFromDirectory (dir argv) w2 = (Returned prev, w3) →
  hubs_get (hubId argv) w3 = (Returned hub, w4) →
  events_get i w4 = (Thrown e, w5) →
  handler argv w =
    (Returned (), w5,
     NewFileLog (logFile argv) :: t1 ++ t2 ++
     [LoadJsonFromDirectory (dir argv) (Returned prev);
      HubsGet (hubId argv) (Returned hub);
      EventsGet i (Thrown e);
      LogError ("Failed to get event with id " +:+ i +:+ ", aborting.") e;
      Close]).
Proof.
  intros Hid Hi Hfrom Hto Hload Hhub Hget. unfold handler.
  rewrite Hid. simpl. rewrite bool_decide_false by done. simpl.
  unfold mbind, run_bind, try_catch, call, emit, mret, run_ret.
  by rewrite Hfrom, Hto, Hload, Hhub, Hget.
Qed.

(** X18: with an [id], the one event is exported whatever its dates:
    [fromDate] and [toDate] are evaluated and not used.  The handler passes
    the event to [processEvents] and ends as it ends; when it returns, the
    handler appends the line that says it is done and closes the log. *)
Theorem single_event_is_not_filtered argv i w from w1 t1 to w2 t2 prev w3 hub w4 ev w5 :
  id argv = Some i → i ≠ "" →
  relative (fromDate argv) w = (Returned from, w1, t1) →
  relative (toDate argv) w1 = (Returned to, w2, t2) →
  loadJsonFromDirectory (dir argv) w2 = (Returned prev, w3) →
  hubs_get (hubId argv) w3 = (Returned hub, w4) →
  events_get i w4 = (Returned ev, w5) →
  let run := processEvents (dir argv) prev [ev] w5 in
  outcome (handler argv w) = outcome run ∧
  world (handler argv w) = world run ∧
  trace (handler argv w) =
    NewFileLog (logFile argv) :: t1 ++ t2 ++
    [LoadJsonFromDirectory (dir argv) (Returned prev);
     HubsGet (hubId argv) (Returned hub);
     EventsGet i (Returned ev);
     AppendLine ("Exporting single event " +:+ Js.template (name ev) +:+ ".")] ++
    trace run ++
    match outcome run with
    | Returned _ => [AppendLine "Done."; Close]
    | Thrown _ => []
    end.
Proof.
  intros Hid Hi Hfrom Hto Hload Hhub Hget run. subst run. unfold handler.
  rewrite Hid. simpl. rewrite bool_decide_false by done. simpl.
  unfold mbind, run_bind, try_catch, call, emit, mret, run_ret.
  rewrite Hfrom, Hto, Hload, Hhub, Hget.
  destruct (processEvents (dir argv) prev [ev] w5) as [[[[]|e] w6] tp]; simpl.
  - done.
  - by rewrite app_nil_r.
Qed.

(** X19: without an [id], the events the handler passes to [processEvents]
    are the events the hub lists that [filterEvents] keeps for the two
    dates; the log says how many of how many.  The handler ends as
    [processEvents] ends; when it returns, the handler appends the line that
    says it is done and closes the log. *)
Theorem listing_is_filtered_then_processed argv w from w1 t1 to w2 t2 prev w3 hub w4 stored w5 :
  Js.truthy (id argv) = false →
  relative (fromDate argv) w = (Returned from, w1, t1) →
  relative (toDate argv) w1 = (Returned to, w2, t2) →
  loadJsonFromDirectory (dir argv) w2 = (Returned prev, w3) →
  hubs_get (hubId argv) w3 = (Returned hub, w4) →
  list_events hub w4 = (Returned stored, w5) →
  let run := processEvents (dir argv) prev (filterEvents stored from to) w5 in
  outcome (handler argv w) = outcome run ∧
  world (handler argv w) = world run ∧
  trace (handler argv w) =
    NewFileLog (logFile argv) :: t1 ++ t2 ++
    [LoadJsonFromDirectory (dir argv) (Returned prev);
     HubsGet (hubId argv) (Returned hub);
     ListEvents hub (Returned stored);
     AppendLine ("Exporting " +:+ pretty (length (filterEvents stored from to)) +:+ " of "
                 +:+ pretty (length stored) +:+ " events...")] ++
    trace run ++
    match outcome run with
    | Returned _ => [AppendLine "Done."; Close]
    | Thrown _ => []
    end.
Proof.
  intros Hid Hfrom Hto Hload Hhub Hlist run. subst run. unfold handler.
  rewrite Hid.
  unfold mbind, run_bind, try_catch, call, emit, mret, run_ret.
  rewrite Hfrom, Hto, Hload, Hhub, Hlist.
  destruct (processEvents (dir argv) prev (filterEvents stored from to) w5)
    as [[[[]|e] w6] tp]; simpl.
  - done.
  - by rewrite app_nil_r.
Qed.

(** X20: whenever the export handler returns, it has closed its log, once,
    and that is the last thing it did: after a hub or an event that could
    not be fetched as after an export. *)
Theorem export_log_is_closed_once argv w :
  outcome (handler argv w) = Returned () →
  log_closes (trace (handler argv w)) = 1 ∧
  last (trace (handler argv w)) = Some Close.
Proof.
  intros Hreturned.
  pose proof (relative_calls (fromDate argv) w) as Hfrom.
  unfold handler in *.
  unfold mbind, run_bind, try_catch, call, emit, mret, run_ret in *.
  destruct (relative (fromDate argv) w) as [[[from|e] w1] t1]; [|done].
  pose proof (relative_calls (toDate argv) w1) as Hto.
  destruct (relative (toDate argv) w1) as [[[to|e] w2] t2]; [|done].
  assert (log_closes t1 = 0 ∧ log_closes t2 = 0) as [Hc1 Hc2].
  { simpl in Hfrom, Hto.
    by destruct Hfrom as [->|(? & ? & ->)], Hto as [->|(? & ? & ->)]. }
  clear Hfrom Hto. unfold log_closes in *.
  destruct (loadJsonFromDirectory (dir argv) w2) as [[prev|e] w3]; [|done].
  destruct (hubs_get (hubId argv) w3) as [[hub|e] w4].
  2: { simpl. rewrite !List.filter_app, !length_app, Hc1, Hc2.
       split; [done|]. by rewrite last_cons, !last_app. }
  destruct (Js.truthy (id argv)).
  - destruct (events_get _ w4) as [[ev|e] w5].
    + pose proof (processEvents_calls (dir argv) prev [ev] w5) as Hp.
      apply process_calls_counts in Hp as (Hp & _ & _). unfold log_closes in Hp.
      destruct (processEvents (dir argv) prev [ev] w5) as [[[[]|e] w6] tp]; [|done].
      simpl in Hp |- *.
      rewrite !List.filter_app, !length_app, Hc1, Hc2. simpl.
      rewrite !List.filter_app, !length_app, Hp.
      split; [done|]. rewrite last_cons, !last_app. simpl.
      by rewrite !last_cons, !last_app.
    + simpl. rewrite !List.filter_app, !length_app, Hc1, Hc2.
      split; [done|]. by rewrite last_cons, !last_app.
  - destruct (list_events hub w4) as [[stored|e] w5].
    + pose proof (processEvents_calls (dir argv) prev (filterEvents stored from to) w5) as Hp.
      apply process_calls_counts in Hp as (Hp & _ & _). unfold log_closes in Hp.
      destruct (processEvents (dir argv) prev (filterEvents stored from to) w5)
        as [[[[]|e] w6] tp]; [|done].
      simpl in Hp |- *.
      rewrite !List.filter_app, !length_app, Hc1, Hc2. simpl.
      rewrite !List.filter_app, !length_app, Hp.
      split; [done|]. rewrite last_cons, !last_app. simpl.
      by rewrite !last_cons, !last_app.
    + pose proof (processEvents_calls (dir argv) prev [] w5) as Hp.
      simpl in Hp |- *.
      rewrite !List.filter_app, !length_app, Hc1, Hc2.
      split; [done|]. by rewrite last_cons, !last_app.
Qed.

(** X21: the handler comes by its events in one way: with an [id] it
    gets the one event and never lists the events of the hub; without, it
    lists them, at most once, and gets none. *)
Theorem one_way_to_the_events argv w :
  (Js.truthy (id argv) = true →
   listings (trace (handler argv w)) = 0 ∧
   (single_gets (trace (handler argv w)) ≤ 1)%nat) ∧
  (Js.truthy (id argv) = false →
   single_gets (trace (handler argv w)) = 0 ∧
   (listings (trace (handler argv w)) ≤ 1)%nat).
Proof.
  pose proof (relative_calls (fromDate argv) w) as Hfrom.
  unfold handler.
  unfold mbind, run_bind, try_catch, call, emit, mret, run_ret.
  destruct (relative (fromDate argv) w) as [[[from|e] w1] t1].
  2: { simpl in Hfrom |- *.
       destruct Hfrom as [->|(? & ? & ->)]; split; intros _;
         unfold listings, single_gets; simpl; lia. }
  pose proof (relative_calls (toDate argv) w1) as Hto.
  assert (∀ t2, (t2 = [] ∨ ∃ s r, t2 = [RelativeDate s r]) →
                (listings t1 = 0 ∧ single_gets t1 = 0) ∧
                (listings t2 = 0 ∧ single_gets t2 = 0)) as Hquiet.
  { intros t2 Ht2. simpl in Hfrom.
    by destruct Hfrom as [->|(? & ? & ->)], Ht2 as [->|(? & ? & ->)]. }
  clear Hfrom.
  destruct (relative (toDate argv) w1) as [[[to|e] w2] t2]; simpl in Hto;
    destruct (Hquiet _ Hto) as [[Hl1 Hg1] [Hl2 Hg2]]; clear Hquiet Hto;
    unfold listings, single_gets in *.
  2: { split; intros _; simpl;
         rewrite !List.filter_app, !length_app, Hl1, Hl2, Hg1, Hg2; simpl; lia. }
  destruct (loadJsonFromDirectory (dir argv) w2) as [[prev|e] w3].
  2: { split; intros _; simpl;
         rewrite !List.filter_app, !length_app, Hl1, Hl2, Hg1, Hg2; simpl; lia. }
  destruct (hubs_get (hubId argv) w3) as [[hub|e] w4].
  2: { split; intros _; simpl;
         rewrite !List.filter_app, !length_app, Hl1, Hl2, Hg1, Hg2; simpl; lia. }
  destruct (Js.truthy (id argv));
    first [split; [intros _|done] | split; [done|intros _]].
  - destruct (events_get _ w4) as [[ev|e] w5].
    + pose proof (processEvents_calls (dir argv) prev [ev] w5) as Hp.
      apply process_calls_counts in Hp as (_ & Hpl & Hpg).
      unfold listings, single_gets in Hpl, Hpg.
      destruct (processEvents (dir argv) prev [ev] w5) as [[[[]|e] w6] tp];
        simpl in Hpl, Hpg |- *;
        rewrite !List.filter_app, !length_app, Hl1, Hl2, Hg1, Hg2; simpl;
        rewrite ?List.filter_app, ?length_app, Hpl, Hpg; simpl; lia.
    + simpl. rewrite !List.filter_app, !length_app, Hl1, Hl2, Hg1, Hg2. simpl. lia.
  - destruct (list_events hub w4) as [[stored|e] w5].
    + pose proof (processEvents_calls (dir argv) prev (filterEvents stored from to) w5) as Hp.
      apply process_calls_counts in Hp as (_ & Hpl & Hpg).
      unfold listings, single_gets in Hpl, Hpg.
      destruct (processEvents (dir argv) prev (filterEvents stored from to) w5)
        as [[[[]|e] w6] tp];
        simpl in Hpl, Hpg |- *;
        rewrite !List.filter_app, !length_app, Hl1, Hl2, Hg1, Hg2; simpl;
        rewrite ?List.filter_app, ?length_app, Hpl, Hpg; simpl; lia.
    + pose proof (processEvents_calls (dir argv) prev [] w5) as Hp.
      apply process_calls_counts in Hp as (_ & Hpl & Hpg).
      unfold listings, single_gets in Hpl, Hpg.
      destruct (processEvents (dir argv) prev [] w5) as [[[[]|e'] w6] tp];
        simpl in Hpl, Hpg |- *;
        rewrite !List.filter_app, !length_app, Hl1, Hl2, Hg1, Hg2; simpl;
        rewrite ?List.filter_app, ?length_app, Hpl, Hpg; simpl; lia.
Qed.

(** *** filterEvents *)

Lemma filterEvents_keeps events from to ev :
  ev ∈ filterEvents events from to ↔
  ev ∈ events ∧
  match from with Some f => Date_lt (Date_parse (end_ ev)) f = false | None => True end ∧
  match to with Some t => Date_gt (Date_parse (start ev)) t = false | None => True end.
Proof.
  unfold filterEvents. rewrite list_elem_of_In, List.filter_In, <-list_elem_of_In.
  destruct from as [f|], to as [t|];
    repeat match goal with |- context [Date_lt ?a ?b] => destruct (Date_lt a b) end;
    repeat match goal with |- context [Date_gt ?a ?b] => destruct (Date_gt a b) end;
    simpl; intuition congruence.
Qed.

Lemma List_filter_all {A} (f : A → bool) l :
  (∀ x, x ∈ l → f x = true) → List.filter f l = l.
Proof.
  induction l as [|x l IH]; intros Hall; [done|]. simpl.
  rewrite (Hall x) by left. f_equal. apply IH. intros y Hy. apply Hall. by right.
Qed.


(** X23: a date that does not parse never drops an event: an event whose
    start and end do not parse is kept whatever the two dates, and with
    dates that are absent or invalid every event is kept. *)
Theorem unparsed_dates_filter_nothing events from to :
  (∀ ev, ev ∈ events → Date_parse (start ev) = None → Date_parse (end_ ev) = None →
         ev ∈ filterEvents events from to) ∧
  ((from = None ∨ from = Some None) → (to = None ∨ to = Some None) →
   filterEvents events from to = events).
Proof.
  split.
  - intros ev Hev Hstart Hend. apply filterEvents_keeps. rewrite Hstart, Hend.
    unfold Date_gt. by destruct from as [[f|]|], to as [[t|]|].
  - intros Hfrom Hto. apply List_filter_all. intros ev Hev.
    unfold Date_gt, Date_lt.
    destruct Hfrom as [->| ->], Hto as [->| ->];
      by destruct (Date_parse (end_ ev)), (Date_parse (start ev)).
Qed.

End Handler.

Lemma no_question_without_overwrite_witness :
  let a := ExportWorld.an_event (Some "a") "x" in
  let b := ExportWorld.an_event (Some "b") "x" in
  let enriched := [set_editions a []; set_editions b []] in
  let w := ExportWorld.disk (Returned [a; b]) [] false in
  let t1 := [AppendLine "Fetching x with editions."; ListEditions a (Returned []);
             AppendLine "Fetching x with editions."; ListEditions b (Returned [])] in
  enrichEvents [a; b] true w = (Returned enriched, w, t1) ∧
  (∀ r, r ∈ (getEventExports "out" [] enriched).1.1 → status r ≠ UPDATED) ∧
  Forall (λ c, is_prompt c = false) (trace (processEvents "out" [] [a; b] w)) ∧
  written_files (trace (processEvents "out" [] [a; b] w)) = ["out/x.json"; "out/x-1.json"].
Proof.
  intros a b enriched w t1.
  assert (enrichEvents [a; b] true w = (Returned enriched, w, t1)) as Henrich
    by reflexivity.
  assert (∀ r, r ∈ (getEventExports "out" [] enriched).1.1 → status r ≠ UPDATED)
    as Hnone.
  { intros r Hr. vm_compute in Hr.
    apply elem_of_cons in Hr as [->|Hr]; [done|].
    apply list_elem_of_singleton in Hr as ->. done. }
  split; [exact Henrich|]. split; [exact Hnone|].
  split; [|reflexivity].
  exact (no_question_without_overwrite "out" [] [a; b] w enriched w t1 Henrich Hnone).
Defined.

Lemma nothing_to_export_without_records_witness :
  let x := ExportWorld.an_event None "x" in
  let w := ExportWorld.disk (Returned [x]) [] true in
  let t1 := [AppendLine "Fetching x with editions."; ListEditions x (Returned [])] in
  enrichEvents [x] true w = (Returned [set_editions x []], w, t1) ∧
  (getEventExports "out" [] [set_editions x []]).1.1 = [] ∧
  processEvents "out" [] [x] w =
    (Returned (), w, t1 ++ [NothingExportedExit None false]).
Proof.
  intros x w t1. split; [reflexivity|]. split; [reflexivity|].
  exact (nothing_to_export_without_records "out" [] [x] w [set_editions x []] w t1
           eq_refl eq_refl).
Defined.

Lemma hub_failure_ends_the_export_witness :
  let w := {| ExportOutage.hub_up := false; ExportOutage.the_event := None;
              ExportOutage.stored := [] |} in
  let argv := ExportOutage.argv None in
  hubs_get (hubId argv) w = (Thrown "Error: Request failed with status code 503", w) ∧
  handler argv w =
    (Returned (), w,
     [NewFileLog "export.log";
      RelativeDate "-7:DAYS" (Returned (Some 0%Z));
      LoadJsonFromDirectory "out" (Returned []);
      HubsGet "hub" (Thrown "Error: Request failed with status code 503");
      LogError "Couldn't get hub with id hub, aborting."
        "Error: Request failed with status code 503";
      Close]).
Proof.
  intros w argv. split; [reflexivity|].
  apply (hub_failure_ends_the_export argv w (Some (Some 0%Z)) w
           [RelativeDate "-7:DAYS" (Returned (Some 0%Z))] None w [] [] w
           "Error: Request failed with status code 503" w); reflexivity.
Defined.

Lemma missing_event_ends_the_export_witness :
  let w := {| ExportOutage.hub_up := true; ExportOutage.the_event := None;
              ExportOutage.stored := [] |} in
  let argv := ExportOutage.argv (Some "missing") in
  events_get "missing" w = (Thrown "Error: Request failed with status code 404", w) ∧
  handler argv w =
    (Returned (), w,
     [NewFileLog "export.log";
      RelativeDate "-7:DAYS" (Returned (Some 0%Z));
      LoadJsonFromDirectory "out" (Returned []);
      HubsGet "hub" (Returned {| hub_id := Some "hub" |});
      EventsGet "missing" (Thrown "Error: Request failed with status code 404");
      LogError "Failed to get event with id missing, aborting."
        "Error: Request failed with status code 404";
      Close]).
Proof.
  intros w argv. split; [reflexivity|].
  apply (missing_event_ends_the_export argv "missing" w (Some (Some 0%Z)) w
           [RelativeDate "-7:DAYS" (Returned (Some 0%Z))] None w [] [] w
           {| hub_id := Some "hub" |} w
           "Error: Request failed with status code 404" w);
    reflexivity || discriminate.
Defined.

Lemma single_event_is_not_filtered_witness :
  let old := {| event_id := Some "e1"; name := Some "old";
                start := Some "2021-01-01T12:00:00.000Z";
                end_ := Some "2021-05-05T12:00:00.000Z"; editions := None |} in
  let w := {| ExportOutage.hub_up := true; ExportOutage.the_event := Some old;
              ExportOutage.stored := [] |} in
  let argv := ExportOutage.argv (Some "e1") in
  events_get "e1" w = (Returned old, w) ∧
  outcome (handler argv w) = outcome (processEvents "out" [] [old] w) ∧
  outcome (handler argv w) = Thrown "Error: EACCES: permission denied" ∧
  edition_listings (trace (handler argv w)) = [old].
Proof.
  intros old w argv. split; [reflexivity|].
  split; [|split; reflexivity].
  refine (proj1 (single_event_is_not_filtered argv "e1" w (Some (Some 0%Z)) w
                   [RelativeDate "-7:DAYS" (Returned (Some 0%Z))] None w [] [] w
                   {| hub_id := Some "hub" |} w old w _ _ _ _ _ _ _));
    reflexivity || discriminate.
Defined.

Lemma listing_is_filtered_then_processed_witness :
  let a := ExportWorld.an_event (Some "a") "x" in
  let w := ExportWorld.disk (Returned [a]) [] true in
  list_events {| hub_id := Some "hub" |} w = (Returned [a], w) ∧
  outcome (handler ExportWorld.argv w) =
    outcome (processEvents "out" [] (filterEvents [a] None None) w) ∧
  ExportWorld.written (world (handler ExportWorld.argv w)) =
    [("out/x.json", delete_id (set_editions a []))].
Proof.
  intros a w. split; [reflexivity|]. split; [|reflexivity].
  refine (proj1 (listing_is_filtered_then_processed ExportWorld.argv w None w [] None w []
                   [] w {| hub_id := Some "hub" |} w [a] w _ _ _ _ _ _));
    reflexivity.
Defined.

Lemma remote_id_is_never_written_witness :
  let a := ExportWorld.an_event (Some "a") "x" in
  let w := ExportWorld.disk (Returned [a]) [] true in
  WriteJsonToFile "out/x.json" (delete_id (set_editions a [])) (Returned ())
    ∈ trace (processEvents "out" [] [a] w) ∧
  event_id (delete_id (set_editions a [])) = None.
Proof.
  intros a w.
  assert (WriteJsonToFile "out/x.json" (delete_id (set_editions a [])) (Returned ())
            ∈ trace (processEvents "out" [] [a] w)) as Hin.
  { vm_compute. do 4 apply list_elem_of_further. apply list_elem_of_here. }
  split; [exact Hin|].
  exact (remote_id_is_never_written "out" [] [a] w _ _ _ Hin).
Defined.

Lemma enrichEditions_lists_in_order_witness :
  let spring := {| edition_id := Some "spring"; slots := None |} in
  let summer := {| edition_id := Some "summer"; slots := None |} in
  let banner := {| slot_id := Some "banner" |} in
  let w := {| ExportCatalogue.editions_of := [];
              ExportCatalogue.slots_of := [("spring", [banner]); ("summer", [])];
              ExportCatalogue.files := [] |} in
  slot_listings (trace (enrichEditions [spring; summer] w)) = [spring; summer] ∧
  in_turn slots_turn [spring; summer] w
    [{| edition_id := Some "spring"; slots := Some [banner] |};
     {| edition_id := Some "summer"; slots := Some [] |}]
    w
    [ListSlots spring (Returned [banner]); ListSlots summer (Returned [])].
Proof.
  intros spring summer banner w.
  exact (enrichEditions_lists_in_order [spring; summer] w).
Defined.

Lemma enrichEvents_never_throws_witness :
  let spring := {| edition_id := Some "spring"; slots := None |} in
  let lost := {| edition_id := Some "lost"; slots := None |} in
  let banner := {| slot_id := Some "banner" |} in
  let a := ExportWorld.an_event (Some "a") "first" in
  let b := ExportWorld.an_event (Some "b") "second" in
  let c := ExportWorld.an_event (Some "c") "third" in
  let w := {| ExportCatalogue.editions_of := [("a", [spring]); ("c", [lost])];
              ExportCatalogue.slots_of := [("spring", [banner])];
              ExportCatalogue.files := [] |} in
  let gone := "Error: Request failed with status code 404" in
  (∃ turned result,
     outcome (enrichEvents [a; b; c] true w) = Returned result ∧
     in_turn (editions_turn true) [a; b; c] w turned
       (world (enrichEvents [a; b; c] true w)) (trace (enrichEvents [a; b; c] true w)) ∧
     result = List.filter (λ ev, bool_decide (is_Some (editions ev))) turned ∧
     edition_listings (trace (enrichEvents [a; b; c] true w)) = [a; b; c] ∧
     Forall (λ ev, is_Some (editions ev)) result ∧
     described <$> result `sublist_of` described <$> [a; b; c]) ∧
  enrichEvents [a; b; c] true w =
    (Returned [{| event_id := Some "a"; name := Some "first"; start := None;
                  end_ := None;
                  editions := Some [{| edition_id := Some "spring";
                                       slots := Some [banner] |}] |}],
     w,
     [AppendLine "Fetching first with editions.";
      ListEditions a (Returned [spring]);
      ListSlots spring (Returned [banner]);
      AppendLine "Fetching second with editions.";
      ListEditions b (Thrown gone);
      LogError "Failed to fetch editions for second, skipping." gone;
      AppendLine "Fetching third with editions.";
      ListEditions c (Returned [lost]);
      ListSlots lost (Thrown gone);
      LogError "Failed to fetch editions for third, skipping." gone]).
Proof.
  intros spring lost banner a b c w gone.
  split; [exact (enrichEvents_never_throws [a; b; c] true w)|reflexivity].
Defined.

Lemma export_log_is_closed_once_witness :
  let a := ExportWorld.an_event (Some "a") "x" in
  let w := ExportWorld.disk (Returned [a]) [] true in
  outcome (handler ExportWorld.argv w) = Returned () ∧
  log_closes (trace (handler ExportWorld.argv w)) = 1 ∧
  last (trace (handler ExportWorld.argv w)) = Some Close.
Proof.
  intros a w. split; [reflexivity|].
  apply (export_log_is_closed_once ExportWorld.argv w). reflexivity.
Defined.

End ExportExtras.
